(** * Voice input tool: the audio segmentation loop of [voice_input_tool.py]

    A shallow embedding of the methods of [VoiceInputTool] that cut the
    microphone stream into chunks and hand them to the recognizer:
    [detect_silence], [process_audio], [process_chunk], [stop_recording]
    and [audio_callback].

    Conventions of the embedding.
    - A frame is the [in_data] buffer of one callback, read as
      [np.frombuffer(..., dtype=np.int16)] reads it: a list of signed
      16-bit samples, each a [Z].  Joining frames ([b''.join]) is [concat].
    - [time.time()] readings and the float64 results of [mean] and of the
      duration formula are exact rationals ([Q]).  The comparisons the code
      makes ([volume < threshold], [chunk_duration >= ...]) have the same
      outcome on the correctly rounded float quotient of two integers as on
      the exact quotient, for every buffer that fits in memory.
    - The calls on the window ([update_status]) and on the recognizer
      ([process_chunk], [text_queue.put], [print]) are events of a trace.
      The drawing calls of [RecordButton] are left out. *)

From Stdlib Require Import ZArith QArith Lia Lqa List Bool Arith.
Import ListNotations.

Local Open Scope Z_scope.

(** ** [detect_silence]: the volume of a buffer *)

Module Volume.

(** One [np.int16] sample. *)
Definition sample := Z.

Definition int16_min : Z := -32768.
Definition int16_max : Z := 32767.

Definition is_int16 (x : Z) : Prop := int16_min <= x <= int16_max.

(** Reduction of an integer to the [int16] range, as numpy stores it. *)
Definition wrap16 (z : Z) : Z := (z + 32768) mod 65536 - 32768.

(** [np.abs] on an [int16] array keeps the dtype: the result of each
    element is stored back as [int16]. *)
Definition abs16 (x : sample) : sample := wrap16 (Z.abs x).

(** [np.abs(data)] *)
Definition np_abs (data : list sample) : list sample := map abs16 data.

(** The sum that [mean] accumulates (in float64, exact on integers of this
    size). *)
Definition total (data : list Z) : Z := fold_right Z.add 0 data.

(** [arr.mean()]: [None] stands for the NaN numpy returns on an empty
    array. *)
Definition mean (data : list Z) : option Q :=
  match data with
  | [] => None
  | _ => Some (inject_Z (total data) / inject_Z (Z.of_nat (length data)))%Q
  end.

(** [volume = np.abs(data).mean()] *)
Definition volume (audio_data : list sample) : option Q :=
  mean (np_abs audio_data).

(** Strict comparison on [Q] as a boolean. *)
Definition Qltb (x y : Q) : bool := negb (Qle_bool y x).

(** [volume < threshold]; every comparison with NaN is [False]. *)
Definition lt_threshold (v : option Q) (threshold : Q) : bool :=
  match v with
  | Some q => Qltb q threshold
  | None => false
  end.

(** [detect_silence(audio_data, threshold)], the returned boolean. *)
Definition detect_silence (audio_data : list sample) (threshold : Q) : bool :=
  lt_threshold (volume audio_data) threshold.

(** The default of the [threshold] argument. *)
Definition default_threshold : Q := 200.

(** The mean absolute amplitude the docstring speaks of, computed without
    the [int16] store. *)
Definition mean_abs (audio_data : list sample) : option Q :=
  mean (map Z.abs audio_data).

End Volume.

(** ** [process_chunk]: handing a chunk to the recognizer *)

Module Chunk.

(** A Python [str]: its code points. *)
Definition char := N.
Definition text := list char.

(** [str.isspace] on one code point: the white space of the Unicode
    character database, which is what [str.strip()] removes. *)
Definition isspace (c : char) : bool :=
  ((9 <=? c) && (c <=? 13) || (28 <=? c) && (c <=? 32)
   || (c =? 133) || (c =? 160) || (c =? 5760)
   || (8192 <=? c) && (c <=? 8202)
   || (c =? 8232) || (c =? 8233) || (c =? 8239) || (c =? 8287)
   || (c =? 12288))%N.

Fixpoint lstrip (t : text) : text :=
  match t with
  | [] => []
  | c :: r => if isspace c then lstrip r else t
  end.

Definition rstrip (t : text) : text := rev (lstrip (rev t)).

(** [text.strip()] *)
Definition strip (t : text) : text := rstrip (lstrip t).

(** Truth value of a [str]: non-empty. *)
Definition nonempty (t : text) : bool :=
  match t with [] => false | _ => true end.

(** What [recognize_google] does on the recorded audio. *)
Inductive recognition :=
| Recognized (t : text)          (* returns the transcript *)
| UnknownValueError              (* raises [sr.UnknownValueError] *)
| OtherException (msg : text).   (* raises any other [Exception] *)

(** What the outside world does during one [process_chunk] call.
    [wav_ready = false]: writing the temporary file, opening it as
    [sr.AudioFile] or [recognizer.record] raises; these calls are outside
    the inner [try]. *)
Record transcription := {
  wav_ready : bool;
  recognize_google : recognition }.

(** What [process_chunk] does that is visible outside it. *)
Inductive effect :=
| PrintRecognized (t : text)     (* print of the recognized text *)
| PrintError (msg : text)        (* print of the error message *)
| Put (t : text).                (* [self.text_queue.put] *)

Inductive completion := Returned | Raised.

(** [process_chunk(frames)].  The temporary file is removed in the
    [finally] block on every path; it is not part of the trace. *)
Definition process_chunk {frame : Type} (frames : list frame)
    (tr : transcription) : list effect * completion :=
  match frames with
  | [] => ([], Returned)
  | _ :: _ =>
      if wav_ready tr then
        match recognize_google tr with
        | Recognized t =>
            if nonempty (strip t)
            then ([PrintRecognized t; Put (strip t)], Returned)
            else ([], Returned)
        | UnknownValueError => ([], Returned)
        | OtherException msg => ([PrintError msg], Returned)
        end
      else ([], Raised)
  end.

(** The texts put on the queue, in order. *)
Fixpoint puts (l : list effect) : list text :=
  match l with
  | [] => []
  | Put t :: r => t :: puts r
  | _ :: r => puts r
  end.

(** The error messages printed, in order. *)
Fixpoint errors (l : list effect) : list text :=
  match l with
  | [] => []
  | PrintError m :: r => m :: errors r
  | _ :: r => errors r
  end.

End Chunk.

(** ** [process_audio]: the segmentation loop *)

Module Segmenter.

Import Volume Chunk.

(** One buffer delivered to [audio_callback]. *)
Definition frame := list sample.

(** The three durations at the head of [process_audio], in seconds. *)
Record config := {
  min_silence_duration : Q;
  min_chunk_duration : Q;
  max_chunk_duration : Q }.

(** The values the source assigns. *)
Definition default_config : config :=
  {| min_silence_duration := 1;
     min_chunk_duration := 1;
     max_chunk_duration := 10 |}.

Definition samples_per_second : Q := 44100.

(** [(len(accumulated_frames) * 1024) / samples_per_second] *)
Definition chunk_duration (accumulated : list frame) : Q :=
  (inject_Z (Z.of_nat (length accumulated) * 1024) / samples_per_second)%Q.

(** The strings passed to [update_status]. *)
Inductive status :=
| Listening      (* the label shown while speech is heard *)
| Processing     (* the label shown while a chunk is recognized *)
| Ready.         (* the label shown otherwise *)

(** Which branch set [should_process]. *)
Inductive rule :=
| SilenceRule    (* the [if]: silence long enough and chunk long enough *)
| ForceCut.      (* the [elif]: chunk at its maximal duration *)

(** What [process_audio] does that is visible outside it. *)
Inductive event :=
| UpdateStatus (st : status)
| ProcessChunk (r : rule) (frames : list frame)
| Recognizer (x : effect).

(** The local variables of [process_audio], with [self.frames]. *)
Record state := {
  frames : list frame;
  silence_start : option Q;
  last_process_size : nat;
  accumulated_frames : list frame;
  last_active_time : Q;
  is_processing : bool;
  last_status_update : Q;
  is_listening : bool }.

(** The state at the first test of the [while] condition; [t0] is the
    reading of [time.time()] there, [self.frames] was emptied by
    [start_recording]. *)
Definition init_state (t0 : Q) : state :=
  {| frames := [];
     silence_start := None;
     last_process_size := 0;
     accumulated_frames := [];
     last_active_time := t0;
     is_processing := false;
     last_status_update := t0;
     is_listening := false |}.

(** What the other threads and the clock do during one iteration.
    [audio_callback] appends to [self.frames] at any time: [arrived] are
    the frames appended before [len(self.frames)] is read, [late] those
    appended after it and before [self.frames[last_process_size:]] is
    evaluated. *)
Record tick_env := {
  arrived : list frame;
  clock : Q;
  late : list frame;
  recognizer : transcription }.

(** [audio_callback] called once for each frame of [fs]. *)
Definition audio_callback (s : state) (fs : list frame) : state :=
  {| frames := frames s ++ fs;
     silence_start := silence_start s;
     last_process_size := last_process_size s;
     accumulated_frames := accumulated_frames s;
     last_active_time := last_active_time s;
     is_processing := is_processing s;
     last_status_update := last_status_update s;
     is_listening := is_listening s |}.

(** [self.frames] when [len(self.frames)] is read. *)
Definition seen (s : state) (e : tick_env) : list frame :=
  frames s ++ arrived e.

(** [self.frames] when the slice is taken. *)
Definition live (s : state) (e : tick_env) : list frame :=
  seen s e ++ late e.

(** [current_size > last_process_size] *)
Definition has_new (s : state) (e : tick_env) : bool :=
  (last_process_size s <? length (seen s e))%nat.

(** [new_frames = self.frames[last_process_size:]] *)
Definition new_frames (s : state) (e : tick_env) : list frame :=
  skipn (last_process_size s) (live s e).

(** [is_silent = self.detect_silence(b''.join(new_frames))] *)
Definition batch_silent (s : state) (e : tick_env) : bool :=
  detect_silence (concat (new_frames s e)) default_threshold.

(** [accumulated_frames] after [extend(new_frames)]. *)
Definition pending (s : state) (e : tick_env) : list frame :=
  accumulated_frames s ++ new_frames s e.

(** The variables the [if not is_silent ... else ...] block writes, and
    the status it shows. *)
Record tracked := {
  start : option Q;          (* [silence_start] *)
  listening : bool;          (* [is_listening] *)
  active : Q;                (* [last_active_time] *)
  shown : list event }.

(** The [if not is_silent ... else ...] block. *)
Definition track_silence (s : state) (is_silent : bool) (current_time : Q)
  : tracked :=
  if negb is_silent then
    {| start := None;
       listening := true;
       active := current_time;
       shown := if is_listening s then [] else [UpdateStatus Listening] |}
  else
    match silence_start s with
    | None =>
        {| start := Some current_time;
           listening := false;
           active := last_active_time s;
           shown := [] |}
    | Some _ =>
        {| start := silence_start s;
           listening := is_listening s;
           active := last_active_time s;
           shown := [] |}
    end.

(** The test [silence_start and (current_time - silence_start >=
    min_silence_duration)]: [None] and [0.0] are both false in Python. *)
Definition silence_elapsed (cfg : config) (silence_start : option Q)
    (current_time : Q) : bool :=
  match silence_start with
  | None => false
  | Some t0 =>
      negb (Qeq_bool t0 0)
      && Qle_bool (min_silence_duration cfg) (current_time - t0)
  end.

(** The [if ... elif ...] that sets [should_process]; [None] when it stays
    [False]. *)
Definition should_process (cfg : config) (silence_start : option Q)
    (current_time chunk_duration : Q) : option rule :=
  if silence_elapsed cfg silence_start current_time then
    if Qle_bool (min_chunk_duration cfg) chunk_duration
    then Some SilenceRule else None
  else if Qle_bool (max_chunk_duration cfg) chunk_duration
    then Some ForceCut else None.

(** [should_process] as the iteration evaluates it: on the tracker and the
    chunk as they are once the whole batch is appended. *)
Definition decision (cfg : config) (s : state) (e : tick_env) : option rule :=
  should_process cfg
    (start (track_silence s (batch_silent s e) (clock e)))
    (clock e) (chunk_duration (pending s e)).

(** The thread that runs [process_audio] after an iteration. *)
Inductive thread :=
| Running (s : state)
| Dead.            (* an exception left [process_audio] *)

(** One iteration of the [while] loop, entered with the condition true. *)
Definition tick (cfg : config) (s : state) (e : tick_env)
  : thread * list event :=
  if is_processing s then
    (Running (audio_callback s (arrived e ++ late e)), [])
  else if has_new s e then
    let tr := track_silence s (batch_silent s e) (clock e) in
    match decision cfg s e with
    | Some r =>
        let '(effects, c) := process_chunk (pending s e) (recognizer e) in
        let trace :=
          shown tr ++ [UpdateStatus Processing; ProcessChunk r (pending s e)]
                   ++ map Recognizer effects in
        match c with
        | Returned =>
            (Running
               {| frames := live s e;
                  silence_start := None;
                  last_process_size := length (seen s e);
                  accumulated_frames := [];
                  last_active_time := active tr;
                  is_processing := false;
                  last_status_update := last_status_update s;
                  is_listening := false |},
             trace ++ [UpdateStatus Ready])
        | Raised => (Dead, trace)
        end
    | None =>
        (Running
           {| frames := live s e;
              silence_start := start tr;
              last_process_size := length (seen s e);
              accumulated_frames := pending s e;
              last_active_time := active tr;
              is_processing := false;
              last_status_update := last_status_update s;
              is_listening := listening tr |},
         shown tr)
    end
  else
    (Running (audio_callback s (arrived e ++ late e)), []).

(** The iterations for the environments [es], in order, while the thread
    lives. *)
Fixpoint run (cfg : config) (s : state) (es : list tick_env)
  : thread * list event :=
  match es with
  | [] => (Running s, [])
  | e :: rest =>
      match tick cfg s e with
      | (Running s', evs) =>
          let '(th, evs') := run cfg s' rest in (th, evs ++ evs')
      | (Dead, evs) => (Dead, evs)
      end
  end.

(** The fields of [VoiceInputTool] that [stop_recording] writes. *)
Record tool := {
  is_recording : bool;
  stream_active : bool;
  animating : bool;
  window_open : bool }.

(** [start_recording] when the stream opens. *)
Definition start_recording (t : tool) : tool :=
  {| is_recording := true;
     stream_active := true;
     animating := true;
     window_open := window_open t |}.

(** [stop_recording]: bound to the record button and to the close button,
    and called by [toggle_window] while recording. *)
Definition stop_recording (t : tool) : tool :=
  {| is_recording := false;
     stream_active := false;
     animating := false;
     window_open := false |}.

(** What happens next in a session: the loop thread is at the head of the
    [while], or the window thread calls [stop_recording]. *)
Inductive action :=
| Iterate (e : tick_env)
| StopRecording.

(** [process_audio] from the state [s] under a schedule: the trace of the
    whole call.  The [while self.is_recording] test reads the field that
    [stop_recording] clears; nothing follows the loop. *)
Fixpoint process_audio_from (cfg : config) (t : tool) (s : state)
    (sched : list action) : list event :=
  match sched with
  | [] => []
  | StopRecording :: rest => process_audio_from cfg (stop_recording t) s rest
  | Iterate e :: rest =>
      if is_recording t then
        match tick cfg s e with
        | (Running s', evs) => evs ++ process_audio_from cfg t s' rest
        | (Dead, evs) => evs
        end
      else []
  end.

(** [process_audio()] started by [start_recording] at time [t0]. *)
Definition process_audio (cfg : config) (t : tool) (t0 : Q)
    (sched : list action) : list event :=
  process_audio_from cfg (start_recording t) (init_state t0) sched.

(** The chunks handed to [process_chunk], in order. *)
Fixpoint chunks (l : list event) : list (list frame) :=
  match l with
  | [] => []
  | ProcessChunk _ fs :: r => fs :: chunks r
  | _ :: r => chunks r
  end.

(** The chunks handed over by the silence rule. *)
Fixpoint silence_chunks (l : list event) : list (list frame) :=
  match l with
  | [] => []
  | ProcessChunk SilenceRule fs :: r => fs :: silence_chunks r
  | _ :: r => silence_chunks r
  end.

(** The chunks handed over by the force-cut. *)
Fixpoint forced_chunks (l : list event) : list (list frame) :=
  match l with
  | [] => []
  | ProcessChunk ForceCut fs :: r => fs :: forced_chunks r
  | _ :: r => forced_chunks r
  end.

(** A frame the volume test calls silent when it is tested alone. *)
Definition silent_frame (f : frame) : Prop :=
  detect_silence f default_threshold = true.

(** The frames of [self.frames] past the cursor are silent ones. *)
Definition unread_silent (s : state) : Prop :=
  (last_process_size s <= length (frames s))%nat
  /\ Forall silent_frame (skipn (last_process_size s) (frames s)).

(** An iteration that finds new frames, all of them silent. *)
Definition silent_tick (e : tick_env) : Prop :=
  arrived e <> [] /\ Forall silent_frame (arrived e)
  /\ Forall silent_frame (late e).

(** An iteration whose frames, if it gets any, are silent ones. *)
Definition quiet_tick (e : tick_env) : Prop :=
  Forall silent_frame (arrived e) /\ Forall silent_frame (late e).

(** No frame is appended between the read of the length and the slice. *)
Definition race_free (es : list tick_env) : Prop :=
  Forall (fun e => late e = []) es.

End Segmenter.

(** ** Concrete frames, iterations and sessions *)

Module Examples.

Import Volume Chunk Segmenter.

(** Frames are cut short here: the loop counts frames and never looks at
    their length. *)
Definition loud : frame := [1000].
Definition quiet : frame := [10].

(** A callback buffer of 1024 samples, all at the lowest value of the
    sample type: the bytes [00 80] repeated. *)
Definition clipped : frame := repeat int16_min 1024.

(** Two full callback buffers that differ. *)
Definition first_frame : frame := repeat 1000 1024.
Definition second_frame : frame := repeat 2000 1024.

Definition no_speech : transcription :=
  {| wav_ready := true; recognize_google := UnknownValueError |}.

Definition failing_backend : transcription :=
  {| wav_ready := true; recognize_google := OtherException [69; 114; 114]%N |}.

(** The transcript [" a"]. *)
Definition padded : text := [32; 97]%N.

Definition heard_padded : transcription :=
  {| wav_ready := true; recognize_google := Recognized padded |}.

(** An iteration that finds the frames [fs] at time [t], none of them
    late. *)
Definition env (fs : list frame) (t : Q) : tick_env :=
  {| arrived := fs; clock := t; late := []; recognizer := no_speech |}.

(** An iteration during which [lt] is appended after the length was
    read. *)
Definition racy (fs lt : list frame) (t : Q) : tick_env :=
  {| arrived := fs; clock := t; late := lt; recognizer := no_speech |}.

(** The state of the loop started at time 100 after the iterations
    [es]. *)
Definition state_after (cfg : config) (es : list tick_env) : state :=
  match fst (run cfg (init_state 100) es) with
  | Running s => s
  | Dead => init_state 100
  end.

(** A second of speech found at once, then silence. *)
Definition speech : tick_env := env (repeat loud 44) 100.
Definition hush1 : tick_env := env [quiet] (2001 # 20).
Definition hush2 : tick_env := env [quiet] 101.
Definition idle : tick_env := env [] (2021 # 20).
Definition hush3 : tick_env := env [quiet] (1011 # 10).

(** Almost ten seconds of speech, then silence. *)
Definition long_speech : tick_env := env (repeat loud 430) 100.
Definition hush_pair : tick_env := env [quiet; quiet] (2001 # 20).
Definition hush_second : tick_env := env (repeat quiet 43) (2021 # 20).

(** Loud frames found at once while 430 frames are pending: three of
    them, and ten seconds of them. *)
Definition burst3 : tick_env := env [loud; loud; loud] (2001 # 20).
Definition burst432 : tick_env := env (repeat loud 432) (2001 # 20).

(** One loud frame in each of [n] iterations. *)
Definition steady (n : nat) : list tick_env :=
  repeat (env [loud] 100) n.

Definition a_tool : tool :=
  {| is_recording := false; stream_active := false;
     animating := false; window_open := true |}.

End Examples.

(** ** [RecordButton]: the level the button shows *)

Module Button.

Import Volume.

(** The fields of [RecordButton] that its methods write. *)
Record button := {
  is_animating : bool;
  volume_level : Q;
  animation_phase : Q }.

(** The fields as [__init__] leaves them. *)
Definition init_button : button :=
  {| is_animating := false; volume_level := 0; animation_phase := 0 |}.

(** [min(1.0, x)]: [x] when [x < 1.0], else [1.0]; a NaN is never below
    [1.0]. *)
Definition min_one (x : option Q) : Q :=
  match x with
  | Some q => if Qltb q 1 then q else 1
  | None => 1
  end.

(** [set_volume(volume)]: [self.volume_level = min(1.0, volume / 300)]. *)
Definition set_volume (b : button) (volume : option Q) : button :=
  {| is_animating := is_animating b;
     volume_level := min_one (option_map (fun v => v / 300)%Q volume);
     animation_phase := animation_phase b |}.

(** One call of [animate]; the redrawing and the call scheduled 20 ms
    later are left out. *)
Definition animate (b : button) : button :=
  if is_animating b then
    {| is_animating := true;
       volume_level := volume_level b;
       animation_phase := (animation_phase b + (3 # 20))%Q |}
  else b.

(** [start_animation], up to the first call of [animate]. *)
Definition start_animation (b : button) : button :=
  animate {| is_animating := true;
             volume_level := 3 # 10;
             animation_phase := animation_phase b |}.

(** [stop_animation] *)
Definition stop_animation (b : button) : button :=
  {| is_animating := false;
     volume_level := 0;
     animation_phase := animation_phase b |}.

(** [detect_silence] when the record button exists: the button after
    [set_volume(volume)] and the returned boolean. *)
Definition detect_silence_on (b : button) (audio_data : list sample)
    (threshold : Q) : button * bool :=
  (set_volume b (volume audio_data), detect_silence audio_data threshold).

End Button.

(** ** [process_text_input]: typing the recognized text *)

Module TextInput.

Import Chunk.

Definition space : char := 32%N.

(** What the three output calls of one delivery do: all return, or one of
    them raises an exception with a message. *)
Inductive delivery :=
| Delivered
| ClipboardRaises (msg : text)   (* [set_clipboard_text] raises *)
| WriteRaises (msg : text)       (* [keyboard.write] raises *)
| SendRaises (msg : text).       (* [keyboard.send('space')] raises *)

(** The calls [process_text_input] makes, in order. *)
Inductive output :=
| SetClipboardText (t : text)
| KeyboardWrite (t : text)
| KeyboardSendSpace
| PrintInputError (msg : text)   (* the print of the handler in the loop *)
| PrintFinalError (msg : text).  (* the print of the handler after it *)

(** The block [set_clipboard_text(accumulated_text.strip());
    keyboard.write(accumulated_text.strip()); keyboard.send('space')]: the
    calls made, the last of which is the one that raises, and the message
    of the exception if there is one. *)
Definition type_out (accumulated_text : text) (d : delivery)
  : list output * option text :=
  let t := strip accumulated_text in
  match d with
  | Delivered =>
      ([SetClipboardText t; KeyboardWrite t; KeyboardSendSpace], None)
  | ClipboardRaises m => ([SetClipboardText t], Some m)
  | WriteRaises m => ([SetClipboardText t; KeyboardWrite t], Some m)
  | SendRaises m =>
      ([SetClipboardText t; KeyboardWrite t; KeyboardSendSpace], Some m)
  end.

(** The local variables of [process_text_input]. *)
Record input_state := {
  last_input_time : Q;
  accumulated_text : text }.

(** The state before the loop; [t0] is the reading of [time.time()]. *)
Definition init_input (t0 : Q) : input_state :=
  {| last_input_time := t0; accumulated_text := [] |}.

(** What the queue, the clock and the output calls do in one iteration:
    [got] is the result of [get_nowait()] ([None] when it raises [Empty]),
    [received_at] the clock read after a text was taken, [checked_at] the
    value of [current_time]. *)
Record input_env := {
  got : option text;
  received_at : Q;
  checked_at : Q;
  delivery_of : delivery }.

(** The inner [try]: a text that is not empty is appended with a space
    and stamps [last_input_time]. *)
Definition receive (s : input_state) (e : input_env) : input_state :=
  match got e with
  | Some t =>
      if nonempty t then
        {| last_input_time := received_at e;
           accumulated_text := accumulated_text s ++ t ++ [space] |}
      else s
  | None => s
  end.

(** [accumulated_text and current_time - last_input_time >= 1.0] *)
Definition due (s : input_state) (current_time : Q) : bool :=
  nonempty (accumulated_text s)
  && Qle_bool 1 (current_time - last_input_time s).

(** One iteration of the [while] loop, with its [except Exception]. *)
Definition input_step (s : input_state) (e : input_env)
  : input_state * list output :=
  let s1 := receive s e in
  if due s1 (checked_at e) then
    match type_out (accumulated_text s1) (delivery_of e) with
    | (calls, None) =>
        ({| last_input_time := last_input_time s1;
            accumulated_text := [] |}, calls)
    | (calls, Some msg) => (s1, calls ++ [PrintInputError msg])
    end
  else (s1, []).

(** The iterations for the environments [es], in order. *)
Fixpoint input_loop (s : input_state) (es : list input_env)
  : input_state * list output :=
  match es with
  | [] => (s, [])
  | e :: rest =>
      let '(s1, out) := input_step s e in
      let '(s2, out') := input_loop s1 rest in
      (s2, out ++ out')
  end.

(** The block after the loop. *)
Definition final_input (s : input_state) (d : delivery) : list output :=
  if nonempty (accumulated_text s) then
    match type_out (accumulated_text s) d with
    | (calls, None) => calls
    | (calls, Some msg) => calls ++ [PrintFinalError msg]
    end
  else [].

(** [process_text_input()]: [es] are the iterations run while
    [self.is_recording] holds, [final] is what the output calls do after
    the loop. *)
Definition process_text_input (t0 : Q) (es : list input_env)
    (final : delivery) : list output :=
  let '(s, out) := input_loop (init_input t0) es in
  out ++ final_input s final.

(** The keys sent by the calls of a trace whose calls all return. *)
Fixpoint typed (l : list output) : text :=
  match l with
  | [] => []
  | KeyboardWrite t :: r => t ++ typed r
  | KeyboardSendSpace :: r => space :: typed r
  | _ :: r => typed r
  end.

(** The texts taken from the queue and kept, in order. *)
Fixpoint received (es : list input_env) : list text :=
  match es with
  | [] => []
  | e :: rest =>
      match got e with
      | Some t => if nonempty t then t :: received rest else received rest
      | None => received rest
      end
  end.

(** A text without white space at either end. *)
Definition trimmed (t : text) : Prop :=
  lstrip t = t /\ lstrip (rev t) = rev t.

End TextInput.

(** ** [toggle_window]: closing the window with the hotkey *)

Module Window.

Import Segmenter.

(** How a call ends: it returns, or [self.root.destroy()] is called on
    [None]. *)
Inductive ended := Done | AttributeError.

(** [toggle_window] when [self.root] is set: [stop_recording] while
    recording, then [self.root.destroy(); self.root = None]. *)
Definition toggle_window_open (t : tool) : tool * ended :=
  let t1 := if is_recording t then stop_recording t else t in
  if window_open t1 then
    ({| is_recording := is_recording t1;
        stream_active := stream_active t1;
        animating := animating t1;
        window_open := false |}, Done)
  else (t1, AttributeError).

End Window.

(** ** More concrete inputs *)

Module Samples.

Import Volume Chunk Segmenter Examples Button TextInput Window.

(** The texts ["hi"] and ["yo"]. *)
Definition hi : text := [104; 105]%N.
Definition yo : text := [121; 111]%N.

Definition take (t : text) (at_time : Q) : input_env :=
  {| got := Some t; received_at := at_time; checked_at := at_time;
     delivery_of := Delivered |}.

Definition wait (at_time : Q) (d : delivery) : input_env :=
  {| got := None; received_at := at_time; checked_at := at_time;
     delivery_of := d |}.

(** A recording tool with its window. *)
Definition recording_tool : tool :=
  {| is_recording := true; stream_active := true;
     animating := true; window_open := true |}.

(** An iteration in which writing the temporary file fails. *)
Definition disk_full : transcription :=
  {| wav_ready := false; recognize_google := UnknownValueError |}.

Definition failing_hush : tick_env :=
  {| arrived := [quiet]; clock := 1011 # 10; late := [];
     recognizer := disk_full |}.

(** An iteration that takes ["hi"] at 100, finds it due at 101 and fails
    on the last output call. *)
Definition slip : input_env :=
  {| got := Some hi; received_at := 100; checked_at := 101;
     delivery_of := SendRaises [69; 114; 114]%N |}.

End Samples.

(** ** What the properties below speak of *)

Module Observations.

Import Volume Chunk Segmenter TextInput.

(** The texts a trace of [process_audio] puts on the queue, in order. *)
Fixpoint queued (l : list event) : list text :=
  match l with
  | [] => []
  | Recognizer (Put t) :: r => t :: queued r
  | _ :: r => queued r
  end.

(** [accumulated_text] as the loop builds it from texts without white
    space at their ends: empty, or such a text followed by one space. *)
Definition spaced (acc : text) : Prop :=
  acc = [] \/ exists u, acc = u ++ [space] /\ u <> [] /\ trimmed u.

(** An iteration that finds exactly one new frame, a loud one, and whose
    temporary file can be written. *)
Definition loud_single (e : tick_env) : Prop :=
  (exists f, arrived e = [f] /\ detect_silence f default_threshold = false)
  /\ late e = []
  /\ wav_ready (recognizer e) = true.

(** The frames the callback delivered during the iterations [es]. *)
Definition delivered (es : list tick_env) : list frame :=
  concat (map (fun e => arrived e ++ late e) es).

End Observations.

Import Volume Chunk Segmenter Examples.

(** * Properties *)

(** ** The volume test *)

Lemma Qltb_lt (x y : Q) : Qltb x y = true <-> (x < y)%Q.
Proof.
  unfold Qltb. rewrite negb_true_iff. split; intro H.
  - apply Qnot_le_lt. intro L. apply Qle_bool_iff in L. congruence.
  - destruct (Qle_bool y x) eqn:E; [|reflexivity].
    apply Qle_bool_iff in E. exfalso. apply (Qlt_not_le _ _ H E).
Qed.

Lemma Qle_bool_false (x y : Q) : Qle_bool x y = false <-> (y < x)%Q.
Proof.
  split; intro H.
  - apply Qnot_le_lt. intro L. apply Qle_bool_iff in L. congruence.
  - destruct (Qle_bool x y) eqn:E; [|reflexivity].
    apply Qle_bool_iff in E. lra.
Qed.

Lemma total_app (a b : list Z) : total (a ++ b) = total a + total b.
Proof.
  unfold total. induction a as [|x a IH]; simpl; [reflexivity|].
  rewrite IH. lia.
Qed.

Lemma abs16_small (x : Z) : -32768 < x <= 32767 -> abs16 x = Z.abs x.
Proof.
  intro H. unfold abs16, wrap16. rewrite Z.mod_small by lia. lia.
Qed.

Lemma abs16_min : abs16 int16_min = int16_min.
Proof. reflexivity. Qed.

Lemma np_abs_small (data : list sample) :
  Forall (fun x => -32768 < x <= 32767) data -> np_abs data = map Z.abs data.
Proof.
  unfold np_abs. induction 1 as [|x l Hx _ IH]; simpl; [reflexivity|].
  now rewrite IH, abs16_small.
Qed.

Lemma total_abs_nonneg (data : list Z) : 0 <= total (map Z.abs data).
Proof.
  unfold total. induction data as [|x l IH]; simpl; lia.
Qed.

Lemma mean_some (data : list Z) :
  data <> [] ->
  mean data
  = Some (inject_Z (total data) / inject_Z (Z.of_nat (length data)))%Q.
Proof. destruct data; [congruence|reflexivity]. Qed.

Lemma length_pos_Q {A : Type} (l : list A) :
  l <> [] -> (0 < inject_Z (Z.of_nat (length l)))%Q.
Proof.
  intro H. change 0%Q with (inject_Z 0). rewrite <- Zlt_Qlt.
  destruct l; [congruence|simpl; lia].
Qed.

(** On samples above the lowest value of the type, the volume is the mean
    absolute amplitude. *)
Lemma volume_mean_abs (data : list sample) :
  Forall (fun x => -32768 < x <= 32767) data ->
  volume data = mean_abs data.
Proof.
  intro H. unfold volume, mean_abs. now rewrite np_abs_small.
Qed.

(** ... and it is not negative. *)
Lemma volume_nonneg (data : list sample) (q : Q) :
  Forall (fun x => -32768 < x <= 32767) data ->
  volume data = Some q -> (0 <= q)%Q.
Proof.
  intros H V. rewrite (volume_mean_abs _ H) in V. unfold mean_abs in V.
  destruct data as [|x l]; [discriminate|].
  assert (N : map Z.abs (x :: l) <> []) by discriminate.
  pose proof (length_pos_Q _ N) as P.
  rewrite (mean_some _ N) in V. injection V as <-.
  apply Qle_shift_div_l; [exact P|].
  rewrite Qmult_0_l. change 0%Q with (inject_Z 0). rewrite <- Zle_Qle.
  exact (total_abs_nonneg (x :: l)).
Qed.

(** A buffer is silent exactly when it has a volume and the volume is
    below the threshold. *)
Lemma detect_silence_lt (d : list sample) (th : Q) :
  detect_silence d th = true <->
  exists q, volume d = Some q /\ (q < th)%Q.
Proof.
  unfold detect_silence, lt_threshold. destruct (volume d) as [q|].
  - rewrite Qltb_lt. split.
    + intro H. now exists q.
    + intros [q' [E H]]. now inversion E.
  - split; [discriminate|]. intros [q [E _]]. discriminate.
Qed.

Lemma detect_silence_total (d : list sample) (th : Q) :
  detect_silence d th = true <->
  d <> []
  /\ (inject_Z (total (np_abs d)) < th * inject_Z (Z.of_nat (length d)))%Q.
Proof.
  unfold detect_silence, volume.
  destruct d as [|x d].
  - simpl. split; [discriminate|intros [H _]; congruence].
  - assert (N : x :: d <> []) by discriminate.
    assert (N' : np_abs (x :: d) <> []) by discriminate.
    rewrite (mean_some _ N'). unfold lt_threshold. rewrite Qltb_lt.
    unfold np_abs at 2. rewrite length_map.
    pose proof (length_pos_Q _ N) as P.
    split.
    + intro H. split; [assumption|].
      set (sm := inject_Z (total (np_abs (x :: d)))) in *.
      set (n := inject_Z (Z.of_nat (length (x :: d)))) in *.
      assert (E : (sm == (sm / n) * n)%Q).
      { field. intro Z0. rewrite Z0 in P. apply (Qlt_irrefl _ P). }
      rewrite E. apply Qmult_lt_compat_r; assumption.
    + intros [_ H]. apply Qlt_shift_div_r; assumption.
Qed.

Lemma detect_silence_app (a b : list sample) (th : Q) :
  detect_silence a th = true -> detect_silence b th = true ->
  detect_silence (a ++ b) th = true.
Proof.
  rewrite !detect_silence_total. intros [Na Ha] [Nb Hb]. split.
  - destruct a; [congruence|discriminate].
  - unfold np_abs in *.
    rewrite map_app, total_app, length_app, Nat2Z.inj_add, !inject_Z_plus.
    lra.
Qed.

(** Silent frames joined into one buffer are silent. *)
Lemma detect_silence_concat (fs : list (list sample)) (th : Q) :
  fs <> [] -> Forall (fun f => detect_silence f th = true) fs ->
  detect_silence (concat fs) th = true.
Proof.
  intros N H. induction H as [|f fs Hf Hfs IH]; [congruence|].
  simpl. destruct fs as [|g fs].
  - simpl. now rewrite app_nil_r.
  - apply detect_silence_app; [assumption|]. apply IH. discriminate.
Qed.

(** C9 (a frame on which the code departs from the claim): on a buffer of
    1024 samples, each a 16-bit integer and each equal to -32768, the
    volume [detect_silence] computes is -32768: it is negative, it is not
    the mean of the absolute values of the samples, which is 32768, and
    the buffer is classified silent under the default threshold 200. *)
Theorem volume_of_clipped_frame :
  length clipped = 1024%nat
  /\ Forall is_int16 clipped
  /\ (exists q, volume clipped = Some q /\ (q == -32768)%Q /\ (q < 0)%Q)
  /\ (exists m, mean_abs clipped = Some m /\ (m == 32768)%Q)
  /\ detect_silence clipped default_threshold = true.
Proof.
  split; [reflexivity|]. split.
  - apply Forall_forall. intros x H. apply repeat_spec in H. subst x.
    unfold is_int16, int16_min, int16_max. lia.
  - split; [|split].
    + eexists. split; [vm_compute; reflexivity|]. split; reflexivity.
    + eexists. split; [vm_compute; reflexivity|]. reflexivity.
    + vm_compute. reflexivity.
Qed.

(** ** One iteration of the loop *)

Ltac tick_cases s e cfg :=
  unfold tick;
  destruct (is_processing s) eqn:?;
  [| destruct (has_new s e) eqn:?;
     [ destruct (decision cfg s e) as [?r|] eqn:?;
       [ destruct (process_chunk (pending s e) (recognizer e))
           as [?effects [|]] eqn:? | ] | ] ].

Lemma chunks_app (a b : list event) : chunks (a ++ b) = chunks a ++ chunks b.
Proof.
  induction a as [|x a IH]; simpl; [reflexivity|].
  destruct x; simpl; rewrite IH; reflexivity.
Qed.

Lemma chunks_recognizer (l : list effect) : chunks (map Recognizer l) = [].
Proof. induction l; simpl; auto. Qed.

Lemma chunks_shown (s : state) (b : bool) (t : Q) :
  chunks (shown (track_silence s b t)) = [].
Proof.
  unfold track_silence. destruct b; simpl.
  - destruct (silence_start s); reflexivity.
  - destruct (is_listening s); reflexivity.
Qed.

(** The chunks of one iteration: the whole pending chunk when the test
    passes on a batch of new frames, nothing otherwise. *)
Lemma tick_chunks (cfg : config) (s : state) (e : tick_env) :
  chunks (snd (tick cfg s e)) =
  if negb (is_processing s) && has_new s e then
    match decision cfg s e with
    | Some _ => [pending s e]
    | None => []
    end
  else [].
Proof.
  tick_cases s e cfg; simpl;
    rewrite ?chunks_app, ?chunks_shown; simpl;
    rewrite ?chunks_app, ?chunks_recognizer; simpl; reflexivity.
Qed.

Lemma tick_idle (cfg : config) (s : state) (e : tick_env) :
  is_processing s = false -> has_new s e = false ->
  tick cfg s e = (Running (audio_callback s (arrived e ++ late e)), []).
Proof. intros P H. unfold tick. now rewrite P, H. Qed.

Lemma start_track (s : state) (b : bool) (t : Q) :
  start (track_silence s b t) <> None <-> b = true.
Proof.
  unfold track_silence. destruct b; simpl.
  - destruct (silence_start s) eqn:E; simpl; split; intros; congruence.
  - split; intros; congruence.
Qed.

Lemma silence_chunks_app (a b : list event) :
  silence_chunks (a ++ b) = silence_chunks a ++ silence_chunks b.
Proof.
  induction a as [|x a IH]; simpl; [reflexivity|].
  destruct x as [|[|]|]; simpl; rewrite IH; reflexivity.
Qed.

Lemma forced_chunks_app (a b : list event) :
  forced_chunks (a ++ b) = forced_chunks a ++ forced_chunks b.
Proof.
  induction a as [|x a IH]; simpl; [reflexivity|].
  destruct x as [|[|]|]; simpl; rewrite IH; reflexivity.
Qed.

Lemma silence_chunks_recognizer (l : list effect) :
  silence_chunks (map Recognizer l) = [].
Proof. induction l; simpl; auto. Qed.

Lemma forced_chunks_recognizer (l : list effect) :
  forced_chunks (map Recognizer l) = [].
Proof. induction l; simpl; auto. Qed.

Lemma silence_chunks_shown (s : state) (b : bool) (t : Q) :
  silence_chunks (shown (track_silence s b t)) = [].
Proof.
  unfold track_silence. destruct b; simpl.
  - destruct (silence_start s); reflexivity.
  - destruct (is_listening s); reflexivity.
Qed.

Lemma forced_chunks_shown (s : state) (b : bool) (t : Q) :
  forced_chunks (shown (track_silence s b t)) = [].
Proof.
  unfold track_silence. destruct b; simpl.
  - destruct (silence_start s); reflexivity.
  - destruct (is_listening s); reflexivity.
Qed.

Lemma tick_silence_chunks (cfg : config) (s : state) (e : tick_env) :
  silence_chunks (snd (tick cfg s e)) =
  if negb (is_processing s) && has_new s e then
    match decision cfg s e with
    | Some SilenceRule => [pending s e]
    | _ => []
    end
  else [].
Proof.
  tick_cases s e cfg; simpl; try reflexivity;
    rewrite ?silence_chunks_app, ?silence_chunks_shown; simpl;
    try reflexivity;
    destruct r; simpl;
    rewrite ?silence_chunks_app, ?silence_chunks_recognizer; reflexivity.
Qed.

Lemma tick_forced_chunks (cfg : config) (s : state) (e : tick_env) :
  forced_chunks (snd (tick cfg s e)) =
  if negb (is_processing s) && has_new s e then
    match decision cfg s e with
    | Some ForceCut => [pending s e]
    | _ => []
    end
  else [].
Proof.
  tick_cases s e cfg; simpl; try reflexivity;
    rewrite ?forced_chunks_app, ?forced_chunks_shown; simpl;
    try reflexivity;
    destruct r; simpl;
    rewrite ?forced_chunks_app, ?forced_chunks_recognizer; reflexivity.
Qed.

Lemma should_process_silence (cfg : config) (ss : option Q) (t d : Q) :
  should_process cfg ss t d = Some SilenceRule <->
  silence_elapsed cfg ss t = true /\ (min_chunk_duration cfg <= d)%Q.
Proof.
  unfold should_process. rewrite <- Qle_bool_iff.
  destruct (silence_elapsed cfg ss t);
    [destruct (Qle_bool (min_chunk_duration cfg) d)
    |destruct (Qle_bool (max_chunk_duration cfg) d)];
    split; try intros [? ?]; try split; congruence.
Qed.

Lemma should_process_forced (cfg : config) (ss : option Q) (t d : Q) :
  should_process cfg ss t d = Some ForceCut <->
  silence_elapsed cfg ss t = false /\ (max_chunk_duration cfg <= d)%Q.
Proof.
  unfold should_process. rewrite <- Qle_bool_iff.
  destruct (silence_elapsed cfg ss t);
    [destruct (Qle_bool (min_chunk_duration cfg) d)
    |destruct (Qle_bool (max_chunk_duration cfg) d)];
    split; try intros [? ?]; try split; congruence.
Qed.

Lemma should_process_max (cfg : config) (ss : option Q) (t d : Q) :
  (min_chunk_duration cfg <= max_chunk_duration cfg)%Q ->
  (max_chunk_duration cfg <= d)%Q ->
  should_process cfg ss t d <> None.
Proof.
  intros M D. unfold should_process.
  assert (A : Qle_bool (min_chunk_duration cfg) d = true)
    by (apply Qle_bool_iff; lra).
  assert (B : Qle_bool (max_chunk_duration cfg) d = true)
    by (apply Qle_bool_iff; lra).
  rewrite A, B. destruct (silence_elapsed cfg ss t); discriminate.
Qed.

Lemma decision_loud (cfg : config) (s : state) (e : tick_env) :
  batch_silent s e = false ->
  decision cfg s e =
  if Qle_bool (max_chunk_duration cfg) (chunk_duration (pending s e))
  then Some ForceCut else None.
Proof.
  intro L. unfold decision, track_silence. rewrite L. reflexivity.
Qed.

Lemma tick_kept (cfg : config) (s : state) (e : tick_env) :
  is_processing s = false -> has_new s e = true -> decision cfg s e = None ->
  exists s', tick cfg s e = (Running s', shown (track_silence s (batch_silent s e) (clock e)))
    /\ accumulated_frames s' = pending s e
    /\ silence_start s' = start (track_silence s (batch_silent s e) (clock e))
    /\ is_processing s' = false
    /\ frames s' = live s e
    /\ last_process_size s' = length (seen s e).
Proof.
  intros P H D. unfold tick. rewrite P, H, D.
  eexists. split; [reflexivity|]. simpl. auto.
Qed.

(** An iteration that hands a chunk over leaves the pending chunk empty
    and the silence mark unset; one that hands nothing over only appends
    to the pending chunk. *)
Lemma tick_reset (cfg : config) (s s' : state) (e : tick_env) (evs : list event) :
  tick cfg s e = (Running s', evs) ->
  (chunks evs <> [] -> accumulated_frames s' = [] /\ silence_start s' = None)
  /\ (chunks evs = [] ->
      exists fs, accumulated_frames s' = accumulated_frames s ++ fs).
Proof.
  intro T.
  pose proof (tick_chunks cfg s e) as C. rewrite T in C. simpl in C.
  revert T C. tick_cases s e cfg; try discriminate; simpl;
    intros T C; inversion T; subst; clear T; simpl in *;
    (split; [intro K|intro K]); try congruence; try (split; reflexivity).
  - exists []. now rewrite app_nil_r.
  - exists (new_frames s e). reflexivity.
  - exists []. now rewrite app_nil_r.
Qed.

Lemma silence_elapsed_true (cfg : config) (ss : option Q) (now : Q) :
  silence_elapsed cfg ss now = true ->
  exists t0, ss = Some t0 /\ ~ (t0 == 0)%Q
             /\ (min_silence_duration cfg <= now - t0)%Q.
Proof.
  unfold silence_elapsed. destruct ss as [t0|]; [|discriminate].
  rewrite andb_true_iff, negb_true_iff. intros [Z L].
  exists t0. split; [reflexivity|]. split.
  - now apply Qeq_bool_neq.
  - now apply Qle_bool_iff.
Qed.

Lemma chunk_duration_app (a b : list frame) :
  (chunk_duration a <= chunk_duration (a ++ b))%Q.
Proof.
  unfold chunk_duration, samples_per_second.
  apply Qle_shift_div_l; [reflexivity|].
  unfold Qdiv. rewrite <- Qmult_assoc.
  setoid_replace (/ 44100 * 44100)%Q with 1%Q by reflexivity.
  rewrite Qmult_1_r. rewrite <- Zle_Qle, length_app. lia.
Qed.

Lemma unread_after (s : state) (e : tick_env) :
  Forall silent_frame (late e) ->
  (length (seen s e) <= length (live s e))%nat
  /\ Forall silent_frame (skipn (length (seen s e)) (live s e)).
Proof.
  intro L. unfold live. split.
  - rewrite length_app. lia.
  - rewrite skipn_app, skipn_all, Nat.sub_diag. simpl. exact L.
Qed.

Lemma new_frames_synced (s : state) (e : tick_env) :
  last_process_size s = length (frames s) -> late e = [] ->
  new_frames s e = arrived e.
Proof.
  intros L R. unfold new_frames, live, seen. rewrite R, app_nil_r, L.
  rewrite skipn_app, skipn_all, Nat.sub_diag. reflexivity.
Qed.

Lemma tick_synced (cfg : config) (s s' : state) (e : tick_env)
    (evs : list event) :
  is_processing s = false ->
  last_process_size s = length (frames s) -> late e = [] ->
  tick cfg s e = (Running s', evs) ->
  is_processing s' = false
  /\ last_process_size s' = length (frames s')
  /\ frames s' = frames s ++ arrived e
  /\ concat (chunks evs) ++ accumulated_frames s'
     = accumulated_frames s ++ arrived e.
Proof.
  intros P L R T.
  pose proof (tick_chunks cfg s e) as C. rewrite T, P in C. simpl in C.
  pose proof (new_frames_synced s e L R) as NF.
  assert (LS : live s e = seen s e) by (unfold live; now rewrite R, app_nil_r).
  destruct (has_new s e) eqn:H.
  - revert T. unfold tick. rewrite P, H.
    destruct (decision cfg s e) as [r|] eqn:D.
    + destruct (process_chunk (pending s e) (recognizer e)) as [eff [|]];
        intro T; inversion T; subst; clear T. simpl. rewrite C. simpl.
      unfold pending. rewrite NF, LS, !app_nil_r. auto.
    + intro T; inversion T; subst; clear T. simpl. rewrite C. simpl.
      unfold pending. rewrite NF, LS. auto.
  - rewrite (tick_idle cfg s e P H) in T. inversion T; subst; clear T. simpl.
    unfold has_new, seen in H. apply Nat.ltb_ge in H.
    rewrite length_app in H.
    assert (A : arrived e = []) by (destruct (arrived e); [reflexivity|simpl in H; lia]).
    rewrite A, R, !app_nil_r. auto.
Qed.

Lemma process_chunk_ready {frame : Type} (fs : list frame) (tr : transcription) :
  wav_ready tr = true -> snd (process_chunk fs tr) = Returned.
Proof.
  intro W. unfold process_chunk. destruct fs; [reflexivity|]. rewrite W.
  destruct (recognize_google tr); [destruct (nonempty (strip t))| |]; reflexivity.
Qed.

Lemma tick_survives (cfg : config) (s : state) (e : tick_env) :
  wav_ready (recognizer e) = true ->
  exists s', fst (tick cfg s e) = Running s'.
Proof.
  intro W. pose proof (process_chunk_ready (pending s e) (recognizer e) W) as R.
  unfold tick. destruct (is_processing s); [eexists; reflexivity|].
  destruct (has_new s e); [|eexists; reflexivity].
  destruct (decision cfg s e); [|eexists; reflexivity].
  destruct (process_chunk (pending s e) (recognizer e)) as [eff c].
  simpl in R. subst c. eexists; reflexivity.
Qed.


(** C5 (amended): in an iteration not blocked by the processing guard that
    finds at least one new frame, the emission test is evaluated once, on
    the tracker and the pending chunk as they are after the whole batch is
    appended, and hands over the whole pending chunk or nothing; an
    iteration that finds no new frame skips the test: it hands nothing
    over and changes no variable of the loop. *)
Theorem emission_check_once_per_batch (cfg : config) (s : state)
    (e : tick_env) :
  is_processing s = false ->
  (has_new s e = true ->
   chunks (snd (tick cfg s e)) =
   match decision cfg s e with Some _ => [pending s e] | None => [] end)
  /\ (has_new s e = false ->
      tick cfg s e = (Running (audio_callback s (arrived e ++ late e)), [])).
Proof.
  intro P. split; intro H.
  - rewrite tick_chunks, P, H. reflexivity.
  - now apply tick_idle.
Qed.


(** C4 (amended): after an iteration that classified a batch, the silence
    mark is set exactly when the batch was silent and no chunk was handed
    over in that iteration (handing a chunk over clears the mark, also
    after a silent batch); an iteration without new frames leaves the mark
    as it was. *)
Theorem silence_start_after_tick (cfg : config) (s s' : state)
    (e : tick_env) (evs : list event) :
  is_processing s = false ->
  tick cfg s e = (Running s', evs) ->
  (has_new s e = true ->
   (silence_start s' <> None <-> batch_silent s e = true /\ chunks evs = []))
  /\ (has_new s e = false -> silence_start s' = silence_start s).
Proof.
  intros P T.
  pose proof (tick_chunks cfg s e) as C. rewrite T, P in C. simpl in C.
  destruct (has_new s e) eqn:H.
  - split; [intros _|discriminate].
    revert T. unfold tick. rewrite P, H.
    destruct (decision cfg s e) as [r|] eqn:D.
    + destruct (process_chunk (pending s e) (recognizer e)) as [eff [|]];
        intro T; inversion T; subst; clear T. simpl.
      split; [congruence|]. intros [_ K]. rewrite C in K. discriminate.
    + intro T; inversion T; subst; clear T. simpl.
      rewrite start_track, C. tauto.
  - split; [discriminate|intros _].
    rewrite (tick_idle cfg s e P H) in T. inversion T. reflexivity.
Qed.


(** For a configuration whose [min_chunk_duration] is at most its
    [max_chunk_duration], an iteration in which the pending chunk reaches
    [max_chunk_duration] hands the whole pending chunk over, whatever the
    silence tracker holds; for every configuration, an iteration whose
    batch is loud hands the pending chunk over by the force-cut when it
    has reached [max_chunk_duration] and otherwise keeps all frames
    pending. *)
Lemma force_cut_when_min_below_max (cfg : config) (s : state) (e : tick_env) :
  is_processing s = false -> has_new s e = true ->
  ((min_chunk_duration cfg <= max_chunk_duration cfg)%Q ->
   (max_chunk_duration cfg <= chunk_duration (pending s e))%Q ->
   chunks (snd (tick cfg s e)) = [pending s e]
   /\ forall s', fst (tick cfg s e) = Running s' -> accumulated_frames s' = [])
  /\ (batch_silent s e = false ->
      ((max_chunk_duration cfg <= chunk_duration (pending s e))%Q ->
       forced_chunks (snd (tick cfg s e)) = [pending s e])
      /\ ((chunk_duration (pending s e) < max_chunk_duration cfg)%Q ->
          chunks (snd (tick cfg s e)) = []
          /\ exists s', fst (tick cfg s e) = Running s'
                        /\ accumulated_frames s' = pending s e)).
Proof.
  intros P H. split.
  - intros M D.
    pose proof (should_process_max cfg
      (start (track_silence s (batch_silent s e) (clock e))) (clock e) _ M D) as N.
    fold (decision cfg s e) in N.
    split.
    + rewrite tick_chunks, P, H. simpl.
      destruct (decision cfg s e); [reflexivity|congruence].
    + intros s' T.
      destruct (tick cfg s e) as [th evs] eqn:E. simpl in T. subst th.
      destruct (tick_reset cfg s s' e evs E) as [A _]. apply A.
      pose proof (tick_chunks cfg s e) as C. rewrite E, P, H in C. simpl in C.
      rewrite C. destruct (decision cfg s e); [discriminate|congruence].
  - intro L. pose proof (decision_loud cfg s e L) as D. split.
    + intro M. apply Qle_bool_iff in M. rewrite M in D.
      rewrite tick_forced_chunks, P, H, D. reflexivity.
    + intro M. apply Qle_bool_false in M. rewrite M in D. split.
      * rewrite tick_chunks, P, H, D. reflexivity.
      * destruct (tick_kept cfg s e P H D) as [s' [T [A _]]].
        exists s'. rewrite T. auto.
Qed.

(** C3 (amended): with the durations of the source (1.0, 1.0 and 10
    seconds), an iteration in which the pending chunk reaches
    [max_chunk_duration] hands a chunk over, whatever the silence tracker
    holds.  The chunk is the whole pending chunk, the frames of the last
    batch included, so it can be longer than [max_chunk_duration], and the
    pending chunk is empty afterwards.  An iteration whose batch is loud
    hands the pending chunk over by the force-cut when it has reached
    [max_chunk_duration], and otherwise hands nothing over and keeps all
    the frames pending. *)
Theorem force_cut_at_max_duration (s : state) (e : tick_env) :
  is_processing s = false -> has_new s e = true ->
  ((max_chunk_duration default_config <= chunk_duration (pending s e))%Q ->
   chunks (snd (tick default_config s e)) = [pending s e]
   /\ (forall s', fst (tick default_config s e) = Running s' ->
                  accumulated_frames s' = [])
   /\ (wav_ready (recognizer e) = true ->
       exists s', fst (tick default_config s e) = Running s'
                  /\ accumulated_frames s' = []))
  /\ (batch_silent s e = false ->
      ((max_chunk_duration default_config
        <= chunk_duration (pending s e))%Q ->
       forced_chunks (snd (tick default_config s e)) = [pending s e])
      /\ ((chunk_duration (pending s e)
           < max_chunk_duration default_config)%Q ->
          chunks (snd (tick default_config s e)) = []
          /\ exists s', fst (tick default_config s e) = Running s'
                        /\ accumulated_frames s' = pending s e)).
Proof.
  intros P H.
  destruct (force_cut_when_min_below_max default_config s e P H) as [A B].
  split; [|exact B].
  intro D.
  assert (M : (min_chunk_duration default_config
               <= max_chunk_duration default_config)%Q)
    by (vm_compute; intro K; discriminate K).
  destruct (A M D) as [C R].
  split; [exact C|]. split; [exact R|].
  intro W. destruct (tick_survives default_config s e W) as [s' T].
  exists s'. split; [exact T|]. now apply R.
Qed.


(** C8 (amended): for a chunk with at least one frame whose audio reaches
    the recognizer: when [recognize_google] raises [UnknownValueError],
    nothing is printed and nothing is put on the queue; when it raises
    another exception, the message is printed once and nothing is put on
    the queue; when it returns a text that is not blank, the text with its
    leading and trailing white space stripped is put on the queue once.
    In each case [process_chunk] returns, and the iteration that called it
    leaves the loop running. *)
Theorem process_chunk_outcomes (cfg : config) (s : state) (e : tick_env)
    (f : frame) (fs : list frame) (tr : transcription) :
  wav_ready tr = true ->
  (recognize_google tr = UnknownValueError ->
   process_chunk (f :: fs) tr = ([], Returned))
  /\ (forall msg, recognize_google tr = OtherException msg ->
      process_chunk (f :: fs) tr = ([PrintError msg], Returned))
  /\ (forall t, recognize_google tr = Recognized t -> strip t <> [] ->
      process_chunk (f :: fs) tr
      = ([PrintRecognized t; Put (strip t)], Returned))
  /\ (recognizer e = tr -> exists s', fst (tick cfg s e) = Running s').
Proof.
  intro W. unfold process_chunk. rewrite W. repeat split.
  - intros ->. reflexivity.
  - intros msg ->. reflexivity.
  - intros t -> N. destruct (strip t); [congruence|reflexivity].
  - intros <-. now apply tick_survives.
Qed.


(** ** Runs of the loop *)

Lemma tick_silence_chunks_long (cfg : config) (s : state) (e : tick_env) :
  Forall (fun fs => (min_chunk_duration cfg <= chunk_duration fs)%Q)
         (silence_chunks (snd (tick cfg s e))).
Proof.
  rewrite tick_silence_chunks.
  destruct (negb (is_processing s) && has_new s e); [|constructor].
  destruct (decision cfg s e) as [[|]|] eqn:D; constructor; [|constructor].
  unfold decision in D. apply should_process_silence in D. tauto.
Qed.

Lemma run_silence_chunks_long (cfg : config) (es : list tick_env) (s : state) :
  Forall (fun fs => (min_chunk_duration cfg <= chunk_duration fs)%Q)
         (silence_chunks (snd (run cfg s es))).
Proof.
  revert s. induction es as [|e es IH]; intro s; simpl; [constructor|].
  pose proof (tick_silence_chunks_long cfg s e) as T.
  destruct (tick cfg s e) as [[s'|] evs]; simpl in *; [|assumption].
  specialize (IH s'). destruct (run cfg s' es) as [th evs']. simpl in *.
  rewrite silence_chunks_app. apply Forall_app. split; assumption.
Qed.

Lemma process_audio_from_stopped (cfg : config) (sched : list action)
    (t : tool) (s : state) :
  is_recording t = false -> process_audio_from cfg t s sched = [].
Proof.
  revert t. induction sched as [|[e|] rest IH]; intros t R; simpl.
  - reflexivity.
  - now rewrite R.
  - apply IH. reflexivity.
Qed.

Lemma process_audio_from_run (cfg : config) (es : list tick_env)
    (t : tool) (s : state) :
  is_recording t = true ->
  process_audio_from cfg t s (map Iterate es) = snd (run cfg s es).
Proof.
  intro R. revert s. induction es as [|e es IH]; intro s; simpl; [reflexivity|].
  rewrite R. destruct (tick cfg s e) as [[s'|] evs]; [|reflexivity].
  rewrite IH. destruct (run cfg s' es). reflexivity.
Qed.

Lemma process_audio_from_silence_chunks_long (cfg : config)
    (sched : list action) (t : tool) (s : state) :
  Forall (fun fs => (min_chunk_duration cfg <= chunk_duration fs)%Q)
         (silence_chunks (process_audio_from cfg t s sched)).
Proof.
  revert t s. induction sched as [|[e|] rest IH]; intros t s; simpl.
  - constructor.
  - destruct (is_recording t); [|constructor].
    pose proof (tick_silence_chunks_long cfg s e) as T.
    destruct (tick cfg s e) as [[s'|] evs]; simpl in *; [|assumption].
    rewrite silence_chunks_app. apply Forall_app. split; [assumption|apply IH].
  - apply IH.
Qed.

(** C6: in every run of [process_audio], each chunk handed over by the
    silence rule has a duration, [frame count * 1024 / 44100], of at least
    [min_chunk_duration]. *)
Theorem silence_chunks_reach_min_duration (cfg : config) (t : tool) (t0 : Q)
    (s : state) (sched : list action) (es : list tick_env) :
  Forall (fun fs => (min_chunk_duration cfg <= chunk_duration fs)%Q)
         (silence_chunks (process_audio cfg t t0 sched))
  /\ Forall (fun fs => (min_chunk_duration cfg <= chunk_duration fs)%Q)
            (silence_chunks (snd (run cfg s es))).
Proof.
  split.
  - apply process_audio_from_silence_chunks_long.
  - apply run_silence_chunks_long.
Qed.

(** C1 (amended): [stop_recording] hands no chunk over.  From any state of
    the loop, with the pending chunk empty or not, nothing is done once
    [stop_recording] has run: the trace of a session is the trace of the
    iterations before the stop, and the pending chunk is dropped. *)
Theorem stop_recording_discards_pending (cfg : config) (t : tool) (s : state)
    (es : list tick_env) (rest : list action) :
  process_audio_from cfg t s (StopRecording :: rest) = []
  /\ process_audio_from cfg t s (map Iterate es ++ StopRecording :: rest)
     = process_audio_from cfg t s (map Iterate es).
Proof.
  assert (A : forall s', process_audio_from cfg t s' (StopRecording :: rest) = []).
  { intro s'. simpl. apply process_audio_from_stopped. reflexivity. }
  split; [apply A|].
  revert s. induction es as [|e es IH]; intro s.
  - apply A.
  - simpl. destruct (is_recording t); [|reflexivity].
    destruct (tick cfg s e) as [[s'|] evs]; [|reflexivity].
    now rewrite IH.
Qed.


Lemma run_cons (cfg : config) (s : state) (e : tick_env) (es : list tick_env) :
  run cfg s (e :: es) =
  match tick cfg s e with
  | (Running s', evs) => (fst (run cfg s' es), evs ++ snd (run cfg s' es))
  | (Dead, evs) => (Dead, evs)
  end.
Proof.
  simpl. destruct (tick cfg s e) as [[s'|] evs]; [|reflexivity].
  destruct (run cfg s' es). reflexivity.
Qed.

Lemma run_app (cfg : config) (es1 es2 : list tick_env) (s s1 : state)
    (evs : list event) :
  run cfg s es1 = (Running s1, evs) ->
  run cfg s (es1 ++ es2) = (fst (run cfg s1 es2), evs ++ snd (run cfg s1 es2)).
Proof.
  revert s evs. induction es1 as [|e es1 IH]; intros s evs R.
  - simpl in R. inversion R; subst. simpl. now destruct (run cfg s1 es2).
  - rewrite <- app_comm_cons, run_cons. rewrite run_cons in R.
    destruct (tick cfg s e) as [[s'|] evs1]; [|discriminate].
    destruct (run cfg s' es1) as [th evs2] eqn:R1. simpl in R.
    inversion R; subst. rewrite (IH s' evs2 R1). simpl.
    now rewrite app_assoc.
Qed.

(** An iteration that hands nothing over, or whose temporary file can be
    written and read, leaves the loop running. *)
Lemma tick_returns (cfg : config) (s : state) (e : tick_env) :
  chunks (snd (tick cfg s e)) = [] \/ wav_ready (recognizer e) = true ->
  exists s', tick cfg s e = (Running s', snd (tick cfg s e)).
Proof.
  intro H.
  assert (K : exists s', fst (tick cfg s e) = Running s').
  { destruct H as [H|H]; [|now apply tick_survives].
    rewrite tick_chunks in H. unfold tick.
    destruct (is_processing s); [eexists; reflexivity|].
    destruct (has_new s e); [|eexists; reflexivity].
    simpl in H. destruct (decision cfg s e); [discriminate|].
    eexists; reflexivity. }
  destruct K as [s' K]. exists s'.
  destruct (tick cfg s e) as [th evs]. simpl in *. now subst.
Qed.

(** A silence mark found after an iteration was there before, and the
    iteration saw no loud batch, or was set by it on a silent batch. *)
Lemma tick_mark_origin (cfg : config) (s s' : state) (e : tick_env)
    (evs : list event) (t : Q) :
  tick cfg s e = (Running s', evs) ->
  silence_start s' = Some t ->
  (silence_start s = Some t
   /\ (is_processing s = false -> has_new s e = true ->
       batch_silent s e = true))
  \/ (silence_start s = None /\ is_processing s = false
      /\ has_new s e = true /\ batch_silent s e = true /\ clock e = t).
Proof.
  unfold tick.
  destruct (is_processing s) eqn:P.
  { intros T S. inversion T; subst. left. split; [exact S|discriminate]. }
  destruct (has_new s e) eqn:H.
  2:{ intros T S. inversion T; subst. left. split; [exact S|discriminate]. }
  destruct (decision cfg s e) as [r|].
  { destruct (process_chunk (pending s e) (recognizer e)) as [eff [|]];
      intros T S; inversion T; subst; discriminate. }
  intros T S. inversion T; subst; clear T. simpl in S.
  unfold track_silence in S. destruct (batch_silent s e); simpl in S.
  - destruct (silence_start s) eqn:E; simpl in S.
    + left. split; [congruence|auto].
    + right. inversion S. auto.
  - discriminate.
Qed.

Lemma run_mark_origin (cfg : config) (es : list tick_env) (s s1 : state)
    (evs : list event) (t : Q) :
  run cfg s es = (Running s1, evs) ->
  silence_start s1 = Some t ->
  (silence_start s = Some t
   /\ forall es3 e' es4 s' evs',
        es = es3 ++ e' :: es4 -> run cfg s es3 = (Running s', evs') ->
        is_processing s' = false -> has_new s' e' = true ->
        batch_silent s' e' = true)
  \/ exists es1 e0 es2 s0 evs0,
       es = es1 ++ e0 :: es2
       /\ run cfg s es1 = (Running s0, evs0)
       /\ silence_start s0 = None /\ is_processing s0 = false
       /\ has_new s0 e0 = true /\ batch_silent s0 e0 = true
       /\ clock e0 = t
       /\ forall es3 e' es4 s' evs',
            es2 = es3 ++ e' :: es4 ->
            run cfg s0 (e0 :: es3) = (Running s', evs') ->
            is_processing s' = false -> has_new s' e' = true ->
            batch_silent s' e' = true.
Proof.
  revert s evs. induction es as [|e es IH]; intros s evs R S.
  - simpl in R. inversion R; subst. left. split; [exact S|].
    intros es3 e' es4 s' evs' E. destruct es3; discriminate E.
  - rewrite run_cons in R.
    destruct (tick cfg s e) as [[s'|] evs1] eqn:T; [|discriminate].
    destruct (run cfg s' es) as [th evs2] eqn:R1. simpl in R.
    inversion R; subst; clear R.
    assert (Tail : forall es3 e' es4 s'' evs',
              es = es3 ++ e' :: es4 ->
              run cfg s (e :: es3) = (Running s'', evs') ->
              exists evs'', run cfg s' es3 = (Running s'', evs'')).
    { intros es3 e' es4 s'' evs' _ R. rewrite run_cons, T in R.
      destruct (run cfg s' es3) as [th' evs'']. simpl in R.
      inversion R; subst. now exists evs''. }
    destruct (IH s' evs2 R1 S)
      as [[L Q]|(es1 & e0 & es2 & s0 & evs0 & E & R0 & N0 & P0 & H & B & C & W)].
    + destruct (tick_mark_origin cfg s s' e evs1 t T L)
        as [[L' K]|(N' & P' & H & B & C)].
      * left. split; [exact L'|].
        intros es3 e' es4 s'' evs' E R P H.
        destruct es3 as [|a es3].
        -- simpl in E. injection E as <- _. simpl in R. inversion R; subst.
           now apply K.
        -- simpl in E. injection E as <- E.
           destruct (Tail es3 e' es4 s'' evs' E R) as [evs'' R'].
           exact (Q es3 e' es4 s'' evs'' E R' P H).
      * right. exists [], e, es, s, []. simpl.
        repeat (split; [auto|]).
        intros es3 e' es4 s'' evs' E R P2 H2.
        destruct (Tail es3 e' es4 s'' evs' E R) as [evs'' R'].
        exact (Q es3 e' es4 s'' evs'' E R' P2 H2).
    + right. exists (e :: es1), e0, es2, s0, (evs1 ++ evs0). subst es.
      split; [reflexivity|]. split; [rewrite run_cons, T, R0; reflexivity|].
      auto 10.
Qed.

(** A chunk handed over by the silence rule after a state without silence
    mark closes a silence run that started after that state. *)
Lemma fresh_silence_run (cfg : config) (s s1 : state) (es : list tick_env)
    (evs : list event) (e : tick_env) :
  silence_start s = None ->
  run cfg s es = (Running s1, evs) ->
  silence_chunks (snd (tick cfg s1 e)) <> [] ->
  exists es1 e0 es2 s0 evs0,
    es ++ [e] = es1 ++ e0 :: es2
    /\ run cfg s es1 = (Running s0, evs0)
    /\ silence_start s0 = None /\ is_processing s0 = false
    /\ has_new s0 e0 = true /\ batch_silent s0 e0 = true
    /\ (min_silence_duration cfg <= clock e - clock e0)%Q
    /\ forall es3 e' es4 s' evs',
         es2 = es3 ++ e' :: es4 ->
         run cfg s0 (e0 :: es3) = (Running s', evs') ->
         is_processing s' = false -> has_new s' e' = true ->
         batch_silent s' e' = true.
Proof.
  intros S0 R N. rewrite tick_silence_chunks in N.
  destruct (is_processing s1) eqn:P; [simpl in N; congruence|].
  destruct (has_new s1 e) eqn:H; [|simpl in N; congruence]. simpl in N.
  destruct (decision cfg s1 e) as [[|]|] eqn:D; try congruence. clear N.
  unfold decision in D. apply should_process_silence in D. destruct D as [D _].
  apply silence_elapsed_true in D. destruct D as (t0 & St & _ & L).
  assert (B : batch_silent s1 e = true).
  { apply (start_track s1 _ (clock e)). congruence. }
  unfold track_silence in St. rewrite B in St. simpl in St.
  destruct (silence_start s1) as [t|] eqn:S1; simpl in St.
  - inversion St; subst t0.
    destruct (run_mark_origin cfg es s s1 evs t R S1)
      as [[K _]|(es1 & e0 & es2 & s0 & evs0 & E & R0 & N0 & P0 & H0 & B0 & C & W)];
      [congruence|].
    exists es1, e0, (es2 ++ [e]), s0, evs0. subst es.
    rewrite <- app_assoc. cbn [app]. rewrite C.
    repeat (split; [auto|]).
    intros es3 e' es4 s' evs' E R' P' H'.
    destruct (exists_last (l := e' :: es4)) as (es5 & x & E5); [discriminate|].
    rewrite E5, app_assoc in E. apply app_inj_tail in E. destruct E as [E <-].
    destruct es5 as [|y es5].
    + simpl in E5. injection E5 as -> _. rewrite app_nil_r in E. subst es3.
      assert (R2 : run cfg s (es1 ++ e0 :: es2)
                   = (fst (run cfg s0 (e0 :: es2)),
                      evs0 ++ snd (run cfg s0 (e0 :: es2))))
        by (apply run_app; exact R0).
      rewrite R, R' in R2. simpl in R2. inversion R2; subst. exact B.
    + simpl in E5. injection E5 as <- E5.
      apply (W es3 e' es5 s' evs'); auto.
  - inversion St; subst t0. exists es, e, [], s1, evs.
    repeat (split; [auto|]).
    intros es3 e' es4 s' evs' E. destruct es3; discriminate E.
Qed.

(** C7: an iteration that hands a chunk over and whose call of
    [process_chunk] returns leaves the loop running with the pending chunk
    empty and the silence mark unset, both in that iteration; an iteration
    that hands nothing over leaves the loop running and only appends to
    the pending chunk, so it is emptied nowhere else in the loop; and
    after a state without silence mark (as every hand-over leaves it) the
    silence rule fires only at the end of a fresh silence run: an
    iteration after that state found the mark unset and saw a silent
    batch, every batch seen from then on was silent, and
    [min_silence_duration] or more has passed since that iteration. *)
Theorem emission_resets_pending_and_marker (cfg : config) :
  (forall (s : state) (e : tick_env),
     chunks (snd (tick cfg s e)) <> [] ->
     wav_ready (recognizer e) = true ->
     exists s',
       tick cfg s e = (Running s', snd (tick cfg s e))
       /\ accumulated_frames s' = [] /\ silence_start s' = None)
  /\ (forall (s : state) (e : tick_env),
        chunks (snd (tick cfg s e)) = [] ->
        exists s' fs,
          tick cfg s e = (Running s', snd (tick cfg s e))
          /\ accumulated_frames s' = accumulated_frames s ++ fs)
  /\ (forall (s s' : state) (e : tick_env) (evs : list event),
        tick cfg s e = (Running s', evs) ->
        (chunks evs <> [] ->
         accumulated_frames s' = [] /\ silence_start s' = None)
        /\ (chunks evs = [] ->
            exists fs, accumulated_frames s' = accumulated_frames s ++ fs))
  /\ (forall (s s1 : state) (es : list tick_env) (evs : list event)
        (e : tick_env),
        silence_start s = None ->
        run cfg s es = (Running s1, evs) ->
        silence_chunks (snd (tick cfg s1 e)) <> [] ->
        exists es1 e0 es2 s0 evs0,
          es ++ [e] = es1 ++ e0 :: es2
          /\ run cfg s es1 = (Running s0, evs0)
          /\ silence_start s0 = None /\ is_processing s0 = false
          /\ has_new s0 e0 = true /\ batch_silent s0 e0 = true
          /\ (min_silence_duration cfg <= clock e - clock e0)%Q
          /\ forall es3 e' es4 s' evs',
               es2 = es3 ++ e' :: es4 ->
               run cfg s0 (e0 :: es3) = (Running s', evs') ->
               is_processing s' = false -> has_new s' e' = true ->
               batch_silent s' e' = true).
Proof.
  split; [|split; [|split]].
  - intros s e N W.
    destruct (tick_returns cfg s e (or_intror W)) as [s' T].
    exists s'. split; [exact T|].
    exact (proj1 (tick_reset cfg s s' e _ T) N).
  - intros s e N.
    destruct (tick_returns cfg s e (or_introl N)) as [s' T].
    destruct (proj2 (tick_reset cfg s s' e _ T) N) as [fs A].
    exists s', fs. split; [exact T|exact A].
  - intros s s' e evs. apply tick_reset.
  - intros s s1 es evs e. apply fresh_silence_run.
Qed.

(** The new frames of an iteration: those left past the cursor, those
    that arrived, and the late ones. *)
Lemma new_frames_unread (s : state) (e : tick_env) :
  (last_process_size s <= length (frames s))%nat ->
  new_frames s e
  = skipn (last_process_size s) (frames s) ++ arrived e ++ late e.
Proof.
  intro L. unfold new_frames, live, seen.
  rewrite <- app_assoc, skipn_app.
  replace (last_process_size s - length (frames s))%nat with 0%nat by lia.
  reflexivity.
Qed.

Lemma quiet_tick_new (s : state) (e : tick_env) :
  unread_silent s -> quiet_tick e -> has_new s e = true ->
  batch_silent s e = true.
Proof.
  intros [L U] [A La] H. unfold batch_silent.
  apply detect_silence_concat.
  - apply Nat.ltb_lt in H. intro N.
    apply (f_equal (@length frame)) in N. unfold new_frames in N.
    rewrite length_skipn in N. unfold live in N.
    rewrite length_app in N. simpl in N. lia.
  - rewrite (new_frames_unread s e L), !Forall_app. auto.
Qed.

Lemma unread_idle (s : state) (e : tick_env) :
  unread_silent s -> quiet_tick e ->
  unread_silent (audio_callback s (arrived e ++ late e)).
Proof.
  intros [L U] [A La]. unfold unread_silent. simpl. split.
  - rewrite length_app. lia.
  - rewrite skipn_app.
    replace (last_process_size s - length (frames s))%nat with 0%nat by lia.
    simpl. rewrite !Forall_app. auto.
Qed.

Lemma quiet_run_started (cfg : config) (t1 : Q) (es : list tick_env) :
  forall s : state,
  is_processing s = false -> unread_silent s ->
  silence_start s = Some t1 ->
  Forall quiet_tick es ->
  (forall es1 e' es2 s' evs',
     es = es1 ++ e' :: es2 -> run cfg s es1 = (Running s', evs') ->
     has_new s' e' = true ->
     (clock e' - t1 < min_silence_duration cfg)%Q) ->
  forced_chunks (snd (run cfg s es)) = [] ->
  exists s1 evs,
    run cfg s es = (Running s1, evs) /\ chunks evs = []
    /\ is_processing s1 = false /\ unread_silent s1
    /\ silence_start s1 = Some t1
    /\ exists fs, accumulated_frames s1 = accumulated_frames s ++ fs.
Proof.
  induction es as [|e es IH]; intros s P U S F C N.
  - exists s, []. simpl. repeat split; auto; try apply U.
    exists []. now rewrite app_nil_r.
  - inversion F as [|? ? Fe Fes]; subst.
    assert (C' : forall s' evs1, tick cfg s e = (Running s', evs1) ->
      forall es1 e' es2 s'' evs',
        es = es1 ++ e' :: es2 -> run cfg s' es1 = (Running s'', evs') ->
        has_new s'' e' = true ->
        (clock e' - t1 < min_silence_duration cfg)%Q).
    { intros s' evs1 T es1 e' es2 s'' evs' E R H.
      apply (C (e :: es1) e' es2 s'' (evs1 ++ evs')); [now rewrite E| |exact H].
      rewrite run_cons, T, R. reflexivity. }
    rewrite run_cons in N.
    destruct (has_new s e) eqn:H.
    + pose proof (quiet_tick_new s e U Fe H) as B.
      pose proof (C [] e es s [] eq_refl eq_refl H) as Ce.
      assert (St : start (track_silence s (batch_silent s e) (clock e)) = Some t1).
      { unfold track_silence. rewrite B, S. reflexivity. }
      assert (El : silence_elapsed cfg (Some t1) (clock e) = false).
      { unfold silence_elapsed. apply andb_false_iff. right.
        now apply Qle_bool_false. }
      pose proof (tick_forced_chunks cfg s e) as TF.
      rewrite P, H in TF. simpl in TF.
      destruct (decision cfg s e) as [[|]|] eqn:D.
      * unfold decision in D. rewrite St in D.
        apply should_process_silence in D. destruct D as [D _]. congruence.
      * destruct (tick cfg s e) as [[s'|] evs1]; simpl in *.
        -- rewrite forced_chunks_app, TF in N. discriminate.
        -- rewrite TF in N. discriminate.
      * destruct (tick_kept cfg s e P H D) as (s' & T & A & S' & P' & Fr & Lp).
        rewrite T in N. simpl in N. rewrite forced_chunks_app in N.
        apply app_eq_nil in N. destruct N as [_ N].
        assert (U' : unread_silent s').
        { unfold unread_silent. rewrite Fr, Lp. apply unread_after. apply Fe. }
        rewrite St in S'.
        destruct (IH s' P' U' S' Fes (C' s' _ T) N)
          as (s1 & evs & R & Ch & P1 & U1 & S1 & fs & A1).
        exists s1, (shown (track_silence s (batch_silent s e) (clock e)) ++ evs).
        split; [rewrite run_cons, T, R; reflexivity|].
        split; [rewrite chunks_app, chunks_shown, Ch; reflexivity|].
        repeat (split; [assumption|]).
        exists (new_frames s e ++ fs). rewrite A1, A. unfold pending.
        now rewrite app_assoc.
    + pose proof (tick_idle cfg s e P H) as T.
      rewrite T in N. simpl in N.
      destruct (IH (audio_callback s (arrived e ++ late e)) P
                  (unread_idle s e U Fe) S Fes (C' _ _ T) N)
        as (s1 & evs & R & Ch & P1 & U1 & S1 & fs & A1).
      exists s1, evs.
      split; [rewrite run_cons, T, R; reflexivity|].
      repeat (split; [assumption|]).
      exists fs. exact A1.
Qed.

(** C2 (amended): let the pending chunk have a duration of at least
    [min_chunk_duration] and the silence mark be unset, and let every
    iteration from then on get silent frames only, or none.  The silence
    run starts at the clock reading (not 0.0) of the first of these
    iterations, which finds new frames.  Then the first iteration that
    finds new frames at a clock reading [min_silence_duration] or more
    past that start hands the whole pending chunk over by the silence
    rule, and no chunk is handed over in the iterations before it, with
    or without new frames, provided no force-cut comes in between. *)
Theorem silence_rule_fires_after_window (cfg : config) (s : state)
    (es : list tick_env) (e : tick_env) :
  is_processing s = false -> unread_silent s ->
  silence_start s = None ->
  (min_chunk_duration cfg <= chunk_duration (accumulated_frames s))%Q ->
  Forall quiet_tick (es ++ [e]) ->
  arrived (hd e es) <> [] ->
  ~ (clock (hd e es) == 0)%Q ->
  (forall es1 e' es2 s' evs',
     es = es1 ++ e' :: es2 -> run cfg s es1 = (Running s', evs') ->
     has_new s' e' = true ->
     (clock e' - clock (hd e es) < min_silence_duration cfg)%Q) ->
  (forall s1 evs, run cfg s es = (Running s1, evs) -> has_new s1 e = true) ->
  (min_silence_duration cfg <= clock e - clock (hd e es))%Q ->
  forced_chunks (snd (run cfg s es)) = [] ->
  exists s1 evs,
    run cfg s es = (Running s1, evs) /\ chunks evs = []
    /\ silence_chunks (snd (tick cfg s1 e)) = [pending s1 e]
    /\ chunks (snd (tick cfg s1 e)) = [pending s1 e].
Proof.
  intros P U S M F A1 Z C He L N.
  apply Forall_app in F. destruct F as [Fes Fe].
  inversion Fe as [|? ? Fe' _]; subst. clear Fe.
  assert (Fire : forall s1 : state,
    is_processing s1 = false -> unread_silent s1 ->
    has_new s1 e = true ->
    start (track_silence s1 true (clock e)) = Some (clock (hd e es)) ->
    (min_chunk_duration cfg <= chunk_duration (accumulated_frames s1))%Q ->
    silence_chunks (snd (tick cfg s1 e)) = [pending s1 e]
    /\ chunks (snd (tick cfg s1 e)) = [pending s1 e]).
  { intros s1 P1 U1 H St M1.
    pose proof (quiet_tick_new s1 e U1 Fe' H) as B.
    assert (D : decision cfg s1 e = Some SilenceRule).
    { unfold decision. rewrite B, St. apply should_process_silence. split.
      - unfold silence_elapsed. apply andb_true_iff. split.
        + apply negb_true_iff.
          destruct (Qeq_bool (clock (hd e es)) 0) eqn:E; [|reflexivity].
          apply Qeq_bool_eq in E. contradiction.
        + now apply Qle_bool_iff.
      - eapply Qle_trans; [exact M1|]. apply chunk_duration_app. }
    rewrite tick_silence_chunks, tick_chunks, P1, H, D. auto. }
  destruct es as [|e1 es].
  - exists s, []. simpl. split; [reflexivity|]. split; [reflexivity|].
    apply Fire; auto.
    + apply (He s []). reflexivity.
    + unfold track_silence. rewrite S. reflexivity.
  - simpl hd in *.
    inversion Fes as [|? ? Fe1 Fes']; subst.
    assert (H : has_new s e1 = true).
    { unfold has_new, seen. apply Nat.ltb_lt. rewrite length_app.
      destruct U as [Lu _]. destruct (arrived e1); [congruence|simpl; lia]. }
    pose proof (quiet_tick_new s e1 U Fe1 H) as B.
    pose proof (C [] e1 es s [] eq_refl eq_refl H) as C1.
    assert (St : start (track_silence s (batch_silent s e1) (clock e1)) = Some (clock e1)).
    { unfold track_silence. rewrite B, S. reflexivity. }
    assert (El : silence_elapsed cfg (Some (clock e1)) (clock e1) = false).
    { unfold silence_elapsed. apply andb_false_iff. right.
      now apply Qle_bool_false. }
    rewrite run_cons in N.
    pose proof (tick_forced_chunks cfg s e1) as TF. rewrite P, H in TF. simpl in TF.
    destruct (decision cfg s e1) as [[|]|] eqn:D.
    + unfold decision in D. rewrite St in D.
      apply should_process_silence in D. destruct D as [D _]. congruence.
    + destruct (tick cfg s e1) as [[s'|] evs1]; simpl in *.
      * rewrite forced_chunks_app, TF in N. discriminate.
      * rewrite TF in N. discriminate.
    + destruct (tick_kept cfg s e1 P H D) as (s' & T & A & S' & P' & Fr & Lp).
      rewrite T in N. simpl in N. rewrite forced_chunks_app in N.
      apply app_eq_nil in N. destruct N as [_ N].
      assert (U' : unread_silent s').
      { unfold unread_silent. rewrite Fr, Lp. apply unread_after. apply Fe1. }
      rewrite St in S'.
      assert (C' : forall es1 e' es2 s'' evs',
        es = es1 ++ e' :: es2 -> run cfg s' es1 = (Running s'', evs') ->
        has_new s'' e' = true ->
        (clock e' - clock e1 < min_silence_duration cfg)%Q).
      { intros es1 e' es2 s'' evs' E R H'.
        apply (C (e1 :: es1) e' es2 s''
                 (shown (track_silence s (batch_silent s e1) (clock e1)) ++ evs'));
          [now rewrite E| |exact H'].
        rewrite run_cons, T, R. reflexivity. }
      destruct (quiet_run_started cfg (clock e1) es s' P' U' S' Fes' C' N)
        as (s1 & evs & R & Ch & P1 & U1 & S1 & fs & A2).
      exists s1, (shown (track_silence s (batch_silent s e1) (clock e1)) ++ evs).
      assert (R' : run cfg s (e1 :: es)
                   = (Running s1,
                      shown (track_silence s (batch_silent s e1) (clock e1)) ++ evs))
        by (rewrite run_cons, T, R; reflexivity).
      split; [exact R'|].
      split; [rewrite chunks_app, chunks_shown, Ch; reflexivity|].
      apply Fire; auto.
      * exact (He s1 _ R').
      * unfold track_silence. rewrite S1. reflexivity.
      * rewrite A2, A. unfold pending. rewrite <- app_assoc.
        eapply Qle_trans; [exact M|]. apply chunk_duration_app.
Qed.


(** Without a frame appended between the read of the length and the
    slice, the chunks handed over followed by the pending chunk are the
    frames delivered so far, in order and each once. *)
Lemma race_free_partition (cfg : config) (es : list tick_env) :
  forall (s s1 : state) (evs : list event),
  is_processing s = false ->
  last_process_size s = length (frames s) ->
  race_free es ->
  run cfg s es = (Running s1, evs) ->
  last_process_size s1 = length (frames s1)
  /\ frames s1 = frames s ++ concat (map arrived es)
  /\ concat (chunks evs) ++ accumulated_frames s1
     = accumulated_frames s ++ concat (map arrived es).
Proof.
  induction es as [|e es IH]; intros s s1 evs P L F R.
  - simpl in R. inversion R; subst. simpl. rewrite !app_nil_r. auto.
  - inversion F as [|? ? Fe Fes]; subst.
    rewrite run_cons in R.
    destruct (tick cfg s e) as [[s'|] evs1] eqn:T; [|discriminate].
    destruct (run cfg s' es) as [th evs2] eqn:R1. simpl in R.
    inversion R; subst; clear R.
    destruct (tick_synced cfg s s' e evs1 P L Fe T) as (P' & L' & Fr & A).
    destruct (IH s' s1 evs2 P' L' Fes R1) as (L1 & Fr1 & A1).
    split; [assumption|]. split.
    + rewrite Fr1, Fr. simpl. now rewrite app_assoc.
    + rewrite chunks_app, concat_app, <- app_assoc, A1. simpl.
      rewrite !app_assoc. now rewrite A.
Qed.


(** C10 (a run on which the code departs from the claim): the callback
    appends [second_frame] after the first iteration has read
    [len(self.frames)] and before it takes [self.frames[last_process_size:]].
    The slice holds both frames while the cursor advances by one, so the
    next iteration reads [second_frame] again: the pending chunk holds it
    twice although [self.frames] holds it once. *)
Theorem late_frame_consumed_twice :
  exists s evs,
    run default_config (init_state 100)
        [racy [first_frame] [second_frame] 100; env [] (2001 # 20)]
    = (Running s, evs)
    /\ frames s = [first_frame; second_frame]
    /\ last_process_size s = 2%nat
    /\ chunks evs = []
    /\ accumulated_frames s = [first_frame; second_frame; second_frame].
Proof.
  exists (state_after default_config
            [racy [first_frame] [second_frame] 100; env [] (2001 # 20)]).
  exists (snd (run default_config (init_state 100)
                 [racy [first_frame] [second_frame] 100; env [] (2001 # 20)])).
  repeat split; vm_compute; reflexivity.
Qed.

(** ** The claims on concrete sessions *)

Ltac evaluate :=
  vm_compute; try reflexivity; try discriminate;
  try (let H := fresh in intro H; discriminate H).

(** Five hundred loud frames, one in each iteration: one chunk of 431
    frames is cut, 69 frames stay pending. *)
Example force_cut_scenario :
  chunks (snd (run default_config (init_state 100) (steady 500)))
  = [repeat loud 431]
  /\ accumulated_frames (state_after default_config (steady 500))
     = repeat loud 69.
Proof. split; vm_compute; reflexivity. Qed.

(** C1, as stated, fails: a session stopped with one frame pending hands
    no chunk over. *)
Lemma stop_with_pending_chunk_emits_nothing :
  accumulated_frames (state_after default_config [env [loud] 100]) = [loud]
  /\ chunks (process_audio default_config a_tool 100
               [Iterate (env [loud] 100); StopRecording]) = [].
Proof. split; vm_compute; reflexivity. Qed.

(** C2, as stated, fails.  First session: the pending chunk is longer than
    a second, the silence run starts at 100.05, and the first iteration at
    which it has lasted a second, at 101.05, finds no new frame and hands
    nothing over.  Second session: the force-cut fires at 100.05, in the
    first silent iteration, and at 101.05, after a second of silence, no
    chunk is handed over. *)
Lemma silence_window_reached_without_chunk :
  (let s := state_after default_config [speech; hush1; hush2] in
   (min_chunk_duration default_config
    <= chunk_duration (accumulated_frames s))%Q
   /\ silence_start s = Some (2001 # 20)
   /\ (clock hush2 - (2001 # 20) < min_silence_duration default_config)%Q
   /\ (min_silence_duration default_config <= clock idle - (2001 # 20))%Q
   /\ chunks (snd (tick default_config s idle)) = [])
  /\ (let s := state_after default_config [long_speech; hush_pair] in
      forced_chunks
        (snd (run default_config (init_state 100) [long_speech; hush_pair]))
      = [repeat loud 430 ++ [quiet; quiet]]
      /\ batch_silent s hush_second = true
      /\ (min_silence_duration default_config
          <= clock hush_second - clock hush_pair)%Q
      /\ chunks (snd (tick default_config s hush_second)) = []).
Proof.
  split; cbv zeta; repeat split; evaluate.
Qed.

(** C3, as stated, fails with the durations of the source.  With 430 loud
    frames pending, three more loud frames found in one iteration give one
    chunk of 433 frames: the chunk goes on past the 431 frames that reach
    [max_chunk_duration], and no frame stays pending.  With 432 more they
    give one chunk of 862 frames, twice [max_chunk_duration] of loud
    frames in a single chunk. *)
Lemma batch_overshoots_max_duration :
  (let s := state_after default_config [long_speech] in
   accumulated_frames s = repeat loud 430
   /\ batch_silent s burst3 = false
   /\ (max_chunk_duration default_config
       <= chunk_duration (repeat loud 431))%Q
   /\ chunks (snd (tick default_config s burst3)) = [repeat loud 433]
   /\ accumulated_frames (state_after default_config [long_speech; burst3])
      = [])
  /\ (let s := state_after default_config [long_speech] in
      batch_silent s burst432 = false
      /\ (max_chunk_duration default_config + max_chunk_duration default_config
          <= chunk_duration (repeat loud 862))%Q
      /\ chunks (snd (run default_config (init_state 100)
                        [long_speech; burst432]))
         = [repeat loud 862]).
Proof.
  split; cbv zeta; repeat split; evaluate.
Qed.

(** C4, as stated, fails: the iteration that hands a chunk over by the
    silence rule classified a silent batch and leaves the mark unset. *)
Lemma silence_start_cleared_after_silent_batch :
  let s := state_after default_config [speech; hush1] in
  let s' := state_after default_config [speech; hush1; hush3] in
  has_new s hush3 = true
  /\ batch_silent s hush3 = true
  /\ fst (tick default_config s hush3) = Running s'
  /\ silence_start s' = None.
Proof. cbv zeta; repeat split; evaluate. Qed.

(** C5, as stated, fails: in an iteration without new frames the test
    would pass on the state as it is, and it is not evaluated. *)
Lemma emission_check_skipped_without_frames :
  let s := state_after default_config [speech; hush1; hush2] in
  is_processing s = false
  /\ arrived idle = []
  /\ should_process default_config (silence_start s) (clock idle)
       (chunk_duration (accumulated_frames s)) = Some SilenceRule
  /\ snd (tick default_config s idle) = [].
Proof. cbv zeta; repeat split; evaluate. Qed.

(** C8, as stated, fails: the transcript [" a"] is not blank, and the text
    put on the queue is ["a"], not the transcript. *)
Lemma padded_text_is_enqueued_stripped :
  nonempty (strip padded) = true
  /\ puts (fst (process_chunk [loud] heard_padded)) = [[97%N]]
  /\ puts (fst (process_chunk [loud] heard_padded)) <> [padded].
Proof. repeat split; evaluate. Qed.

(** The quiet frame is silent. *)
Lemma quiet_silent : silent_frame quiet.
Proof. vm_compute. reflexivity. Qed.

(** C2 on a session: a second of speech, silent frames at 100.05 and 101,
    an iteration without frames at 101.05, when the silence has lasted a
    second; the iteration at 101.1 hands the 47 frames over. *)
Lemma silence_rule_fires_after_window_witness :
  let s := state_after default_config [speech] in
  (min_chunk_duration default_config
   <= chunk_duration (accumulated_frames s))%Q
  /\ arrived idle = []
  /\ (min_silence_duration default_config <= clock idle - clock hush1)%Q
  /\ (min_silence_duration default_config <= clock hush3 - clock hush1)%Q
  /\ exists s1 evs,
       run default_config s [hush1; hush2; idle] = (Running s1, evs)
       /\ chunks evs = []
       /\ silence_chunks (snd (tick default_config s1 hush3))
          = [pending s1 hush3]
       /\ chunks (snd (tick default_config s1 hush3)) = [pending s1 hush3].
Proof.
  cbv zeta. split; [evaluate|]. split; [reflexivity|].
  split; [evaluate|]. split; [evaluate|].
  apply (silence_rule_fires_after_window default_config
           (state_after default_config [speech]) [hush1; hush2; idle] hush3).
  - vm_compute. reflexivity.
  - split.
    + replace (last_process_size (state_after default_config [speech]))
        with 44%nat by (vm_compute; reflexivity).
      replace (length (frames (state_after default_config [speech])))
        with 44%nat by (vm_compute; reflexivity).
      apply le_n.
    + replace (skipn (last_process_size (state_after default_config [speech]))
                 (frames (state_after default_config [speech])))
        with (@nil frame) by (vm_compute; reflexivity).
      apply Forall_nil.
  - vm_compute. reflexivity.
  - evaluate.
  - repeat (apply Forall_cons;
            [split; repeat (apply Forall_cons; [exact quiet_silent|]);
             apply Forall_nil|]).
    apply Forall_nil.
  - discriminate.
  - evaluate.
  - intros es1 e' es2 s' evs' E R H.
    destruct es1 as [|a [|b [|c es1]]].
    + injection E as <- _. evaluate.
    + injection E as <- <- _. evaluate.
    + injection E as <- <- <- _.
      vm_compute in R. injection R as <- _.
      vm_compute in H. discriminate H.
    + exfalso. injection E as _ _ _ E. destruct es1; discriminate E.
  - intros s1 evs R. vm_compute in R. injection R as <- _.
    vm_compute. reflexivity.
  - evaluate.
  - vm_compute. reflexivity.
Defined.

(** C3 on a session: 430 loud frames are pending and one more arrives. *)
Lemma force_cut_at_max_duration_witness :
  let s := state_after default_config [long_speech] in
  let e := env [loud] (2001 # 20) in
  (max_chunk_duration default_config <= chunk_duration (pending s e))%Q
  /\ batch_silent s e = false
  /\ chunks (snd (tick default_config s e)) = [pending s e]
  /\ forced_chunks (snd (tick default_config s e)) = [pending s e]
  /\ exists s', fst (tick default_config s e) = Running s'
                /\ accumulated_frames s' = [].
Proof.
  cbv zeta.
  assert (D : (max_chunk_duration default_config
               <= chunk_duration
                    (pending (state_after default_config [long_speech])
                       (env [loud] (2001 # 20))))%Q) by evaluate.
  assert (L : batch_silent (state_after default_config [long_speech])
                (env [loud] (2001 # 20)) = false) by (vm_compute; reflexivity).
  destruct (force_cut_at_max_duration
              (state_after default_config [long_speech])
              (env [loud] (2001 # 20)) eq_refl eq_refl) as [A B].
  split; [exact D|]. split; [exact L|]. split; [|split].
  - exact (proj1 (A D)).
  - exact (proj1 (B L) D).
  - exact (proj2 (proj2 (A D)) eq_refl).
Defined.

(** C4 on a session: a silent batch that is kept sets the mark. *)
Lemma silence_start_after_tick_witness :
  let s := state_after default_config [speech] in
  let s' := state_after default_config [speech; hush1] in
  has_new s hush1 = true
  /\ batch_silent s hush1 = true
  /\ chunks (snd (tick default_config s hush1)) = []
  /\ silence_start s' <> None.
Proof.
  cbv zeta.
  assert (T : tick default_config (state_after default_config [speech]) hush1
              = (Running (state_after default_config [speech; hush1]),
                 snd (tick default_config
                        (state_after default_config [speech]) hush1)))
    by (vm_compute; reflexivity).
  destruct (silence_start_after_tick default_config
              (state_after default_config [speech])
              (state_after default_config [speech; hush1]) hush1
              (snd (tick default_config
                      (state_after default_config [speech]) hush1))
              eq_refl T) as [A _].
  assert (H : has_new (state_after default_config [speech]) hush1 = true)
    by (vm_compute; reflexivity).
  assert (B : batch_silent (state_after default_config [speech]) hush1 = true)
    by (vm_compute; reflexivity).
  assert (C : chunks (snd (tick default_config
                             (state_after default_config [speech]) hush1)) = [])
    by (vm_compute; reflexivity).
  split; [exact H|]. split; [exact B|]. split; [exact C|].
  apply (proj2 (A H)). split; [exact B|exact C].
Defined.

(** C5 on a session: the iteration at 101.1 finds a frame and hands the
    pending chunk over once; the one at 101.05 finds none. *)
Lemma emission_check_once_per_batch_witness :
  let s := state_after default_config [speech; hush1; hush2] in
  is_processing s = false
  /\ has_new s hush3 = true
  /\ chunks (snd (tick default_config s hush3)) =
     match decision default_config s hush3 with
     | Some _ => [pending s hush3]
     | None => []
     end
  /\ has_new s idle = false
  /\ tick default_config s idle
     = (Running (audio_callback s (arrived idle ++ late idle)), []).
Proof.
  cbv zeta.
  destruct (emission_check_once_per_batch default_config
              (state_after default_config [speech; hush1; hush2]) hush3
              eq_refl) as [A _].
  destruct (emission_check_once_per_batch default_config
              (state_after default_config [speech; hush1; hush2]) idle
              eq_refl) as [_ B].
  split; [reflexivity|]. split; [vm_compute; reflexivity|].
  split; [apply A; vm_compute; reflexivity|].
  split; [vm_compute; reflexivity|].
  apply B. vm_compute. reflexivity.
Defined.

(** C7 on a session: the iteration at 101.1 hands a chunk over and leaves
    the loop running with the pending chunk empty and the mark unset; the
    silence run it closes began at 100.05, after the state without
    mark. *)
Lemma emission_resets_pending_and_marker_witness :
  let s := state_after default_config [speech; hush1] in
  chunks (snd (tick default_config s hush3)) <> []
  /\ wav_ready (recognizer hush3) = true
  /\ (exists s',
        tick default_config s hush3
        = (Running s', snd (tick default_config s hush3))
        /\ accumulated_frames s' = [] /\ silence_start s' = None)
  /\ exists es1 e0 es2 s0 evs0,
       [speech; hush1] ++ [hush3] = es1 ++ e0 :: es2
       /\ run default_config (init_state 100) es1 = (Running s0, evs0)
       /\ silence_start s0 = None /\ is_processing s0 = false
       /\ has_new s0 e0 = true /\ batch_silent s0 e0 = true
       /\ (min_silence_duration default_config <= clock hush3 - clock e0)%Q
       /\ forall es3 e' es4 s' evs',
            es2 = es3 ++ e' :: es4 ->
            run default_config s0 (e0 :: es3) = (Running s', evs') ->
            is_processing s' = false -> has_new s' e' = true ->
            batch_silent s' e' = true.
Proof.
  cbv zeta.
  destruct (emission_resets_pending_and_marker default_config)
    as (A & _ & _ & B).
  assert (N : chunks (snd (tick default_config
                             (state_after default_config [speech; hush1])
                             hush3)) <> []) by evaluate.
  split; [exact N|]. split; [reflexivity|].
  split; [exact (A _ hush3 N eq_refl)|].
  apply (B (init_state 100) (state_after default_config [speech; hush1])
           [speech; hush1]
           (snd (run default_config (init_state 100) [speech; hush1])) hush3).
  - reflexivity.
  - vm_compute. reflexivity.
  - evaluate.
Defined.

(** C8 on three calls: no speech, a failing backend, a padded
    transcript. *)
Lemma process_chunk_outcomes_witness :
  process_chunk [loud] no_speech = ([], Returned)
  /\ process_chunk [loud] failing_backend
     = ([PrintError [69; 114; 114]%N], Returned)
  /\ process_chunk [loud] heard_padded
     = ([PrintRecognized padded; Put [97%N]], Returned)
  /\ exists s', fst (tick default_config
                       (state_after default_config [speech; hush1])
                       {| arrived := [quiet]; clock := 1011 # 10; late := [];
                          recognizer := failing_backend |}) = Running s'.
Proof.
  pose (e := {| arrived := [quiet]; clock := 1011 # 10; late := [];
                recognizer := failing_backend |}).
  pose (s := state_after default_config [speech; hush1]).
  destruct (process_chunk_outcomes default_config s e loud [] no_speech
              eq_refl) as (A & _).
  destruct (process_chunk_outcomes default_config s e loud [] failing_backend
              eq_refl) as (_ & B & _ & D).
  destruct (process_chunk_outcomes default_config s e loud [] heard_padded
              eq_refl) as (_ & _ & C & _).
  split; [apply A; reflexivity|].
  split; [apply (B [69; 114; 114]%N); reflexivity|].
  split; [apply (C padded); [reflexivity|evaluate]|].
  apply D. reflexivity.
Defined.

(** * Further properties *)

Import Button TextInput Window Samples Observations.

(** ** Texts *)


Lemma lstrip_split (t : text) :
  exists ws, t = ws ++ lstrip t /\ forallb isspace ws = true.
Proof.
  induction t as [|c r IH]; simpl.
  - exists []. auto.
  - destruct (isspace c) eqn:E.
    + destruct IH as [ws [H1 H2]]. exists (c :: ws). simpl.
      rewrite E, H2. split; [f_equal; exact H1|reflexivity].
    + exists []. auto.
Qed.

Lemma lstrip_length (t : text) : (length (lstrip t) <= length t)%nat.
Proof.
  induction t as [|c r IH]; simpl; [lia|].
  destruct (isspace c); simpl; lia.
Qed.

Lemma lstrip_head (c : char) (r : text) :
  lstrip (c :: r) = c :: r <-> isspace c = false.
Proof.
  simpl. destruct (isspace c) eqn:E; split; intro H; try congruence.
  pose proof (lstrip_length r) as L. rewrite H in L. simpl in L. lia.
Qed.

Lemma lstrip_idem (t : text) : lstrip (lstrip t) = lstrip t.
Proof.
  induction t as [|c r IH]; simpl; [reflexivity|].
  destruct (isspace c) eqn:E; [exact IH|]. simpl. now rewrite E.
Qed.

Lemma lstrip_app_head (c : char) (r u : text) :
  isspace c = false -> lstrip ((c :: r) ++ u) = (c :: r) ++ u.
Proof. intro E. simpl. now rewrite E. Qed.

Lemma rstrip_prefix (u : text) :
  exists ws, u = rstrip u ++ ws.
Proof.
  destruct (lstrip_split (rev u)) as [ws [H _]].
  exists (rev ws). unfold rstrip.
  rewrite <- rev_app_distr, <- H. symmetry. apply rev_involutive.
Qed.

Lemma strip_trimmed (t : text) : trimmed (strip t).
Proof.
  unfold trimmed, strip. split.
  - destruct (rstrip_prefix (lstrip t)) as [ws H].
    destruct (rstrip (lstrip t)) as [|c r] eqn:R; [reflexivity|].
    apply lstrip_head.
    destruct (lstrip t) as [|c' r'] eqn:L; [discriminate|].
    simpl in H. injection H as Hc Hr. subst c'.
    assert (K : lstrip (c :: r') = c :: r') by (rewrite <- L; apply lstrip_idem).
    now apply lstrip_head in K.
  - unfold rstrip. rewrite rev_involutive. apply lstrip_idem.
Qed.

Lemma trimmed_strip (t : text) : trimmed t -> strip t = t.
Proof.
  intros [A B]. unfold strip, rstrip. rewrite A, B. apply rev_involutive.
Qed.

(** [strip] applied twice gives what it gives once, and what it gives
    has no white space at its start or at its end. *)
Theorem strip_idempotent (t : text) :
  strip (strip t) = strip t /\ trimmed (strip t).
Proof.
  split; [apply trimmed_strip|]; apply strip_trimmed.
Qed.


Lemma space_isspace : isspace space = true.
Proof. reflexivity. Qed.

Lemma trimmed_head (u : text) :
  u <> [] -> trimmed u -> exists c r, u = c :: r /\ isspace c = false.
Proof.
  intros N [A _]. destruct u as [|c r]; [congruence|].
  exists c, r. split; [reflexivity|]. now apply (lstrip_head c r).
Qed.

Lemma trimmed_last (u : text) :
  u <> [] -> trimmed u -> exists c r, rev u = c :: r /\ isspace c = false.
Proof.
  intros N [_ B]. destruct (rev u) as [|c r] eqn:E.
  - apply (f_equal (@rev char)) in E. rewrite rev_involutive in E. now subst.
  - exists c, r. split; [reflexivity|]. now apply (lstrip_head c r).
Qed.

Lemma strip_spaced (u : text) :
  u <> [] -> trimmed u -> strip (u ++ [space]) = u.
Proof.
  intros N T. destruct (trimmed_head u N T) as (c & r & -> & E).
  unfold strip. rewrite (lstrip_app_head c r [space] E).
  unfold rstrip. rewrite rev_unit.
  change (lstrip (space :: rev (c :: r))) with (lstrip (rev (c :: r))).
  destruct T as [_ B]. rewrite B. apply rev_involutive.
Qed.

Lemma spaced_append (acc t : text) :
  spaced acc -> t <> [] -> trimmed t -> spaced (acc ++ t ++ [space]).
Proof.
  intros [->|(u & -> & N & T)] Nt Tt.
  - right. exists t. auto.
  - right. exists (u ++ [space] ++ t). split; [now rewrite <- !app_assoc|].
    split; [destruct u; [congruence|discriminate]|].
    destruct (trimmed_head u N T) as (c & r & -> & E).
    destruct (trimmed_last t Nt Tt) as (c' & r' & R & E').
    split.
    + apply (lstrip_app_head c r _ E).
    + rewrite !rev_app_distr, R, <- app_assoc. apply (lstrip_app_head c' r' _ E').
Qed.

Lemma typed_app (a b : list output) : typed (a ++ b) = typed a ++ typed b.
Proof.
  induction a as [|x a IH]; simpl; [reflexivity|].
  destruct x; simpl; rewrite IH; try reflexivity. now rewrite app_assoc.
Qed.

Lemma typed_delivered (acc : text) :
  spaced acc -> acc <> [] -> typed (fst (type_out acc Delivered)) = acc.
Proof.
  intros [->|(u & -> & N & T)] Na; simpl.
  - congruence.
  - rewrite (strip_spaced u N T). reflexivity.
Qed.

Lemma nonempty_true (t : text) : nonempty t = true <-> t <> [].
Proof. destruct t; simpl; split; congruence. Qed.

Lemma input_step_delivered (s : input_state) (e : input_env) :
  delivery_of e = Delivered ->
  (forall t, got e = Some t -> trimmed t) ->
  spaced (accumulated_text s) ->
  spaced (accumulated_text (fst (input_step s e)))
  /\ typed (snd (input_step s e)) ++ accumulated_text (fst (input_step s e))
     = accumulated_text s ++ concat (map (fun t => t ++ [space]) (received [e])).
Proof.
  intros D G S.
  assert (R : spaced (accumulated_text (receive s e))
              /\ accumulated_text (receive s e)
                 = accumulated_text s
                   ++ concat (map (fun t => t ++ [space]) (received [e]))).
  { unfold receive. simpl. destruct (got e) as [t|] eqn:E.
    - destruct (nonempty t) eqn:Nt; simpl.
      + split; [|now rewrite app_nil_r].
        apply spaced_append; auto. now apply nonempty_true.
      + now rewrite app_nil_r.
    - now rewrite app_nil_r. }
  destruct R as [R1 R2]. unfold input_step.
  destruct (due (receive s e) (checked_at e)) eqn:Du.
  - unfold due in Du. apply andb_true_iff in Du. destruct Du as [Na _].
    apply nonempty_true in Na.
    rewrite D, <- R2. pose proof (typed_delivered _ R1 Na) as T.
    simpl in T |- *. split; [now left|]. rewrite app_nil_r. exact T.
  - simpl. split; [exact R1|exact R2].
Qed.

Lemma received_cons (e : input_env) (es : list input_env) :
  received (e :: es) = received [e] ++ received es.
Proof.
  simpl. destruct (got e) as [t|]; [destruct (nonempty t)|]; reflexivity.
Qed.

Lemma input_loop_delivered (es : list input_env) :
  forall s : input_state,
  Forall (fun e => delivery_of e = Delivered) es ->
  Forall (fun e => forall t, got e = Some t -> trimmed t) es ->
  spaced (accumulated_text s) ->
  spaced (accumulated_text (fst (input_loop s es)))
  /\ typed (snd (input_loop s es)) ++ accumulated_text (fst (input_loop s es))
     = accumulated_text s ++ concat (map (fun t => t ++ [space]) (received es)).
Proof.
  induction es as [|e es IH]; intros s D G S.
  - simpl. rewrite app_nil_r. auto.
  - inversion D as [|? ? De Des]; subst. inversion G as [|? ? Ge Ges]; subst.
    destruct (input_step_delivered s e De Ge S) as [S1 T1].
    simpl input_loop. destruct (input_step s e) as [s1 out] eqn:E1.
    cbn [fst snd] in S1, T1.
    destruct (IH s1 Des Ges S1) as [S2 T2].
    destruct (input_loop s1 es) as [s2 out'] eqn:E2. cbn [fst snd] in *.
    split; [exact S2|].
    rewrite typed_app, <- app_assoc, T2, app_assoc, T1.
    rewrite (received_cons e es), map_app, concat_app, <- !app_assoc.
    reflexivity.
Qed.

(** X13: when every output call returns and every text taken from the
    queue has no white space at its ends, the keys [process_text_input]
    sends, the block after the loop included, are the texts taken from the
    queue, in order, each followed by one space: nothing is dropped,
    repeated or merged. *)
Theorem typed_text_is_received_text (t0 : Q) (es : list input_env) :
  Forall (fun e => delivery_of e = Delivered) es ->
  Forall (fun e => forall t, got e = Some t -> trimmed t) es ->
  typed (process_text_input t0 es Delivered)
  = concat (map (fun t => t ++ [space]) (received es)).
Proof.
  intros D G. unfold process_text_input.
  assert (S0 : spaced (accumulated_text (init_input t0))) by now left.
  destruct (input_loop_delivered es (init_input t0) D G S0) as [S T].
  destruct (input_loop (init_input t0) es) as [s out]. simpl in *.
  rewrite typed_app, <- T. f_equal.
  unfold final_input. destruct (nonempty (accumulated_text s)) eqn:N.
  - apply (typed_delivered _ S). now apply nonempty_true.
  - destruct (accumulated_text s); [reflexivity|discriminate].
Qed.

(** X14: when an output call raises in an iteration that is due, the
    handler prints the message and [accumulated_text] is kept; the next
    due iteration in which the calls return sends the same text and
    empties [accumulated_text].  When it is [keyboard.send] that raised,
    the text had already been written once. *)
Theorem failed_delivery_keeps_text (s : input_state) (e e' : input_env) :
  due (receive s e) (checked_at e) = true ->
  delivery_of e <> Delivered ->
  got e' = None -> delivery_of e' = Delivered ->
  (1 <= checked_at e' - last_input_time (receive s e))%Q ->
  let kept := accumulated_text (receive s e) in
  let s1 := fst (input_step s e) in
  accumulated_text s1 = kept
  /\ (exists calls msg, snd (input_step s e) = calls ++ [PrintInputError msg])
  /\ snd (input_step s1 e')
     = [SetClipboardText (strip kept); KeyboardWrite (strip kept);
        KeyboardSendSpace]
  /\ accumulated_text (fst (input_step s1 e')) = []
  /\ (forall m, delivery_of e = SendRaises m ->
      In (KeyboardWrite (strip kept)) (snd (input_step s e))).
Proof.
  intros Du Nd G' D' L. cbv zeta.
  assert (K : fst (input_step s e) = receive s e).
  { unfold input_step. rewrite Du. destruct (delivery_of e); simpl; congruence. }
  split; [now rewrite K|]. split.
  { unfold input_step. rewrite Du.
    destruct (delivery_of e) as [|m|m|m]; [congruence|..];
      cbn [type_out]; eexists; exists m; reflexivity. }
  rewrite K.
  assert (R : receive (receive s e) e' = receive s e).
  { unfold receive at 1. now rewrite G'. }
  assert (Du' : due (receive s e) (checked_at e') = true).
  { unfold due in *. apply andb_true_iff in Du. destruct Du as [N _].
    rewrite N. simpl. now apply Qle_bool_iff. }
  unfold input_step at 1 2. rewrite R, Du', D'. simpl.
  split; [reflexivity|]. split; [reflexivity|].
  intros m Dm. unfold input_step. rewrite Du, Dm. simpl. auto.
Qed.


Lemma tick_bookkeeping (cfg : config) (s s' : state) (e : tick_env)
    (evs : list event) :
  tick cfg s e = (Running s', evs) ->
  frames s' = frames s ++ arrived e ++ late e
  /\ (last_process_size s <= last_process_size s')%nat
  /\ (is_processing s = false -> is_processing s' = false)
  /\ ((last_process_size s <= length (frames s))%nat ->
      (last_process_size s' <= length (frames s'))%nat).
Proof.
  unfold tick. destruct (is_processing s) eqn:P.
  { intro T. inversion T; subst; clear T. simpl.
    rewrite length_app. repeat split; auto; try lia; try discriminate. }
  destruct (has_new s e) eqn:H.
  2:{ intro T. inversion T; subst; clear T. simpl.
      rewrite length_app. repeat split; auto; lia. }
  assert (L : (last_process_size s < length (seen s e))%nat)
    by (now apply Nat.ltb_lt).
  assert (F : live s e = frames s ++ arrived e ++ late e)
    by (unfold live, seen; now rewrite app_assoc).
  assert (G : (length (seen s e) <= length (live s e))%nat)
    by (unfold live; rewrite length_app; lia).
  destruct (decision cfg s e) as [r|].
  - destruct (process_chunk (pending s e) (recognizer e)) as [eff [|]];
      intro T; inversion T; subst; clear T. simpl.
    repeat split; auto; lia.
  - intro T; inversion T; subst; clear T. simpl.
    repeat split; auto; lia.
Qed.

Lemma run_bookkeeping (cfg : config) (es : list tick_env) :
  forall (s s1 : state) (evs : list event),
  run cfg s es = (Running s1, evs) ->
  frames s1 = frames s ++ delivered es
  /\ (last_process_size s <= last_process_size s1)%nat
  /\ (is_processing s = false -> is_processing s1 = false)
  /\ ((last_process_size s <= length (frames s))%nat ->
      (last_process_size s1 <= length (frames s1))%nat).
Proof.
  induction es as [|e es IH]; intros s s1 evs R.
  - simpl in R. inversion R; subst. unfold delivered. simpl.
    rewrite app_nil_r. auto.
  - rewrite run_cons in R.
    destruct (tick cfg s e) as [[s'|] evs1] eqn:T; [|discriminate].
    destruct (run cfg s' es) as [th evs2] eqn:R1. simpl in R.
    inversion R; subst; clear R.
    destruct (tick_bookkeeping cfg s s' e evs1 T) as (F & L & P & C).
    destruct (IH s' s1 evs2 R1) as (F1 & L1 & P1 & C1).
    split; [|split; [lia|split; auto]].
    rewrite F1, F. unfold delivered. simpl. now rewrite <- !app_assoc.
Qed.

(** X5: in every state the loop reaches from its start, [is_processing]
    is false (the guard at the head of the loop never blocks),
    [self.frames] holds every frame the callback delivered, in order (the
    loop removes none), and the cursor [last_process_size] is within
    [self.frames]. *)
Theorem loop_bookkeeping (cfg : config) (t0 : Q) (es : list tick_env)
    (s1 : state) (evs : list event) :
  run cfg (init_state t0) es = (Running s1, evs) ->
  is_processing s1 = false
  /\ frames s1 = delivered es
  /\ (last_process_size s1 <= length (frames s1))%nat.
Proof.
  intro R. destruct (run_bookkeeping cfg es _ _ _ R) as (F & _ & P & C).
  split; [now apply P|]. split; [exact F|]. apply C. simpl. lia.
Qed.

Lemma has_new_pending (s : state) (e : tick_env) :
  has_new s e = true -> pending s e <> [].
Proof.
  intro H. apply Nat.ltb_lt in H. unfold pending, new_frames.
  assert (L : (0 < length (skipn (last_process_size s) (live s e)))%nat).
  { rewrite length_skipn. unfold live. rewrite length_app. lia. }
  destruct (skipn (last_process_size s) (live s e)); [simpl in L; lia|].
  destruct (accumulated_frames s); discriminate.
Qed.

Lemma tick_chunks_nonempty (cfg : config) (s : state) (e : tick_env) :
  Forall (fun fs => fs <> []) (chunks (snd (tick cfg s e))).
Proof.
  rewrite tick_chunks.
  destruct (negb (is_processing s)); simpl; [|constructor].
  destruct (has_new s e) eqn:H; [|constructor].
  destruct (decision cfg s e); constructor; [|constructor].
  now apply has_new_pending.
Qed.

Lemma process_audio_from_chunks (P : list frame -> Prop) (cfg : config) :
  (forall s e, Forall P (chunks (snd (tick cfg s e)))) ->
  forall (sched : list action) (t : tool) (s : state),
  Forall P (chunks (process_audio_from cfg t s sched)).
Proof.
  intros T sched. induction sched as [|[e|] rest IH]; intros t s; simpl.
  - constructor.
  - destruct (is_recording t); [|constructor].
    specialize (T s e).
    destruct (tick cfg s e) as [[s'|] evs]; simpl in *; [|assumption].
    rewrite chunks_app. apply Forall_app. split; [assumption|apply IH].
  - apply IH.
Qed.

Lemma run_chunks (P : list frame -> Prop) (cfg : config) :
  (forall s e, Forall P (chunks (snd (tick cfg s e)))) ->
  forall (es : list tick_env) (s : state),
  Forall P (chunks (snd (run cfg s es))).
Proof.
  intros T es. induction es as [|e es IH]; intro s; simpl; [constructor|].
  specialize (T s e).
  destruct (tick cfg s e) as [[s'|] evs]; simpl in *; [|assumption].
  specialize (IH s'). destruct (run cfg s' es) as [th evs']. simpl in *.
  rewrite chunks_app. apply Forall_app. split; assumption.
Qed.

(** X6: no chunk handed to [process_chunk] by the loop is empty, so the
    [if not frames: return] of [process_chunk] is never taken from the
    loop. *)
Theorem chunks_are_not_empty (cfg : config) (t : tool) (t0 : Q) (s : state)
    (sched : list action) (es : list tick_env) :
  Forall (fun fs => fs <> []) (chunks (process_audio cfg t t0 sched))
  /\ Forall (fun fs => fs <> []) (chunks (snd (run cfg s es))).
Proof.
  split.
  - apply process_audio_from_chunks. apply tick_chunks_nonempty.
  - apply run_chunks. apply tick_chunks_nonempty.
Qed.

Lemma chunk_duration_frames (l : list frame) (k : Z) :
  (inject_Z k <= chunk_duration l)%Q <-> k * 44100 <= Z.of_nat (length l) * 1024.
Proof.
  unfold chunk_duration, samples_per_second. split; intro H.
  - apply (Qmult_le_compat_r _ _ 44100) in H; [|discriminate].
    unfold Qdiv in H. rewrite <- Qmult_assoc in H.
    setoid_replace (/ 44100 * 44100)%Q with 1%Q in H by reflexivity.
    rewrite Qmult_1_r in H.
    change 44100%Q with (inject_Z 44100) in H.
    rewrite <- inject_Z_mult, <- Zle_Qle in H. exact H.
  - apply Qle_shift_div_l; [reflexivity|].
    change 44100%Q with (inject_Z 44100).
    rewrite <- inject_Z_mult, <- Zle_Qle. exact H.
Qed.

Lemma default_min_frames (l : list frame) :
  (min_chunk_duration default_config <= chunk_duration l)%Q
  <-> (44 <= length l)%nat.
Proof.
  change (min_chunk_duration default_config) with (inject_Z 1).
  rewrite chunk_duration_frames. lia.
Qed.

Lemma default_max_frames (l : list frame) :
  (max_chunk_duration default_config <= chunk_duration l)%Q
  <-> (431 <= length l)%nat.
Proof.
  change (max_chunk_duration default_config) with (inject_Z 10).
  rewrite chunk_duration_frames. lia.
Qed.

(** X7: with the durations of the source, a chunk reaches
    [min_chunk_duration] exactly from 44 frames on and
    [max_chunk_duration] exactly from 431 frames on. *)
Theorem default_durations_in_frames (l : list frame) :
  ((min_chunk_duration default_config <= chunk_duration l)%Q
   <-> (44 <= length l)%nat)
  /\ ((max_chunk_duration default_config <= chunk_duration l)%Q
      <-> (431 <= length l)%nat).
Proof. split; [apply default_min_frames|apply default_max_frames]. Qed.

Lemma tick_chunks_long (cfg : config) (s : state) (e : tick_env) :
  Forall (fun fs => (min_chunk_duration cfg <= chunk_duration fs)%Q
                    \/ (max_chunk_duration cfg <= chunk_duration fs)%Q)
         (chunks (snd (tick cfg s e))).
Proof.
  rewrite tick_chunks.
  destruct (negb (is_processing s) && has_new s e); [|constructor].
  destruct (decision cfg s e) as [[|]|] eqn:D.
  - apply Forall_cons; [|apply Forall_nil].
    left. unfold decision in D. apply should_process_silence in D. tauto.
  - apply Forall_cons; [|apply Forall_nil].
    right. unfold decision in D. apply should_process_forced in D. tauto.
  - apply Forall_nil.
Qed.

Lemma tick_forced_long (cfg : config) (s : state) (e : tick_env) :
  Forall (fun fs => (max_chunk_duration cfg <= chunk_duration fs)%Q)
         (forced_chunks (snd (tick cfg s e))).
Proof.
  rewrite tick_forced_chunks.
  destruct (negb (is_processing s) && has_new s e); [|constructor].
  destruct (decision cfg s e) as [[|]|] eqn:D; try apply Forall_nil.
  apply Forall_cons; [|apply Forall_nil].
  unfold decision in D. apply should_process_forced in D. tauto.
Qed.

Lemma run_forced_long (cfg : config) (es : list tick_env) (s : state) :
  Forall (fun fs => (max_chunk_duration cfg <= chunk_duration fs)%Q)
         (forced_chunks (snd (run cfg s es))).
Proof.
  revert s. induction es as [|e es IH]; intro s; simpl; [constructor|].
  pose proof (tick_forced_long cfg s e) as T.
  destruct (tick cfg s e) as [[s'|] evs]; simpl in *; [|assumption].
  specialize (IH s'). destruct (run cfg s' es) as [th evs']. simpl in *.
  rewrite forced_chunks_app. apply Forall_app. split; assumption.
Qed.

(** X8: every chunk cut by the force-cut lasts [max_chunk_duration] or
    more; with the durations of the source, every chunk handed over during
    a session holds 44 frames or more. *)
Theorem chunks_reach_threshold (cfg : config) (t : tool) (t0 : Q) (s : state)
    (sched : list action) (es : list tick_env) :
  Forall (fun fs => (max_chunk_duration cfg <= chunk_duration fs)%Q)
         (forced_chunks (snd (run cfg s es)))
  /\ Forall (fun fs => (44 <= length fs)%nat)
            (chunks (process_audio default_config t t0 sched)).
Proof.
  split; [apply run_forced_long|].
  apply process_audio_from_chunks. intros s' e.
  eapply Forall_impl; [|apply tick_chunks_long].
  intros fs [H|H].
  - now apply default_min_frames.
  - apply default_max_frames in H. lia.
Qed.


Lemma tick_pending_bounded (cfg : config) (s s' : state) (e : tick_env)
    (evs : list event) :
  (min_chunk_duration cfg <= max_chunk_duration cfg)%Q ->
  accumulated_frames s = []
  \/ (chunk_duration (accumulated_frames s) < max_chunk_duration cfg)%Q ->
  tick cfg s e = (Running s', evs) ->
  accumulated_frames s' = []
  \/ (chunk_duration (accumulated_frames s') < max_chunk_duration cfg)%Q.
Proof.
  intros M B. unfold tick. destruct (is_processing s) eqn:P.
  { intro T. inversion T; subst. exact B. }
  destruct (has_new s e) eqn:H.
  2:{ intro T. inversion T; subst. exact B. }
  destruct (decision cfg s e) as [r|] eqn:D.
  - destruct (process_chunk (pending s e) (recognizer e)) as [eff [|]];
      intro T; inversion T; subst. now left.
  - intro T; inversion T; subst; clear T. simpl. right.
    destruct (Qlt_le_dec (chunk_duration (pending s e)) (max_chunk_duration cfg))
      as [L|L]; [exact L|].
    exfalso. unfold decision in D. revert D. now apply should_process_max.
Qed.

(** X9: when [min_chunk_duration <= max_chunk_duration], the pending
    chunk is empty or shorter than [max_chunk_duration] after every
    iteration, if it was so before the first. *)
Theorem pending_stays_below_max (cfg : config) (es : list tick_env) (s s1 : state)
    (evs : list event) :
  (min_chunk_duration cfg <= max_chunk_duration cfg)%Q ->
  accumulated_frames s = []
  \/ (chunk_duration (accumulated_frames s) < max_chunk_duration cfg)%Q ->
  run cfg s es = (Running s1, evs) ->
  accumulated_frames s1 = []
  \/ (chunk_duration (accumulated_frames s1) < max_chunk_duration cfg)%Q.
Proof.
  intro M. revert s evs. induction es as [|e es IH]; intros s evs B R.
  - simpl in R. inversion R; subst. exact B.
  - rewrite run_cons in R.
    destruct (tick cfg s e) as [[s'|] evs1] eqn:T; [|discriminate].
    destruct (run cfg s' es) as [th evs2] eqn:R1. simpl in R.
    inversion R; subst; clear R.
    apply (IH s' evs2); [|exact R1].
    exact (tick_pending_bounded cfg s s' e evs1 M B T).
Qed.

Lemma process_chunk_raised {frame : Type} (fs : list frame)
    (tr : transcription) :
  fs <> [] ->
  (snd (process_chunk fs tr) = Raised <-> wav_ready tr = false).
Proof.
  intro N. unfold process_chunk. destruct fs; [congruence|].
  destruct (wav_ready tr).
  - destruct (recognize_google tr); [destruct (nonempty (strip t))| |];
      simpl; split; discriminate.
  - simpl. tauto.
Qed.

(** X10: when an iteration hands a chunk over and the temporary file
    cannot be written or read, the exception leaves [process_chunk] and
    ends the loop thread: the chunk was handed over, and whatever arrives
    later in the session is not processed, the trace of [process_audio]
    ends with that iteration. *)
Theorem failed_recording_file_ends_loop (cfg : config) (s : state)
    (e : tick_env) :
  is_processing s = false -> has_new s e = true ->
  decision cfg s e <> None -> wav_ready (recognizer e) = false ->
  fst (tick cfg s e) = Dead
  /\ chunks (snd (tick cfg s e)) = [pending s e]
  /\ forall (t : tool) (rest : list action),
       is_recording t = true ->
       process_audio_from cfg t s (Iterate e :: rest) = snd (tick cfg s e).
Proof.
  intros P H N W.
  assert (D : fst (tick cfg s e) = Dead).
  { unfold tick. rewrite P, H.
    pose proof (process_chunk_raised (pending s e) (recognizer e)
                  (has_new_pending s e H)) as R.
    destruct (decision cfg s e) as [r|]; [|congruence].
    destruct (process_chunk (pending s e) (recognizer e)) as [eff [|]];
      simpl in *; [|reflexivity].
    apply R in W. discriminate. }
  split; [exact D|]. split.
  - rewrite tick_chunks, P, H. simpl.
    destruct (decision cfg s e); [reflexivity|congruence].
  - intros t rest Rec. simpl. rewrite Rec.
    destruct (tick cfg s e) as [[s'|] evs]; [discriminate|reflexivity].
Qed.

Lemma delivered_race_free (es : list tick_env) :
  race_free es -> delivered es = concat (map arrived es).
Proof.
  unfold delivered. induction 1 as [|e es He _ IH]; simpl; [reflexivity|].
  now rewrite He, app_nil_r, IH.
Qed.

(** X11: when no frame is appended between the read of the length and the
    slice, the chunks handed over followed by the pending chunk are exactly
    the frames delivered since the start, in order, each once, and the
    cursor is at the end of [self.frames]. *)
Theorem frames_partitioned_without_race (cfg : config) (t0 : Q) (es : list tick_env)
    (s1 : state) (evs : list event) :
  race_free es ->
  run cfg (init_state t0) es = (Running s1, evs) ->
  concat (chunks evs) ++ accumulated_frames s1 = delivered es
  /\ frames s1 = delivered es
  /\ last_process_size s1 = length (frames s1).
Proof.
  intros F R.
  destruct (race_free_partition cfg es (init_state t0) s1 evs
              eq_refl eq_refl F R) as (L & Fr & A).
  rewrite (delivered_race_free es F). simpl in *. auto.
Qed.

Lemma loud_tick (s : state) (e : tick_env) :
  is_processing s = false ->
  last_process_size s = length (frames s) ->
  loud_single e ->
  exists s',
    tick default_config s e
    = (Running s', snd (tick default_config s e))
    /\ is_processing s' = false
    /\ last_process_size s' = length (frames s')
    /\ length (pending s e) = S (length (accumulated_frames s))
    /\ ((length (pending s e) < 431)%nat ->
        chunks (snd (tick default_config s e)) = []
        /\ forced_chunks (snd (tick default_config s e)) = []
        /\ accumulated_frames s' = pending s e)
    /\ ((431 <= length (pending s e))%nat ->
        chunks (snd (tick default_config s e)) = [pending s e]
        /\ forced_chunks (snd (tick default_config s e)) = [pending s e]
        /\ accumulated_frames s' = []).
Proof.
  intros P L ((f & A & Lf) & La & W).
  destruct (tick_survives default_config s e W) as [s' T].
  assert (T' : tick default_config s e
               = (Running s', snd (tick default_config s e))).
  { destruct (tick default_config s e) as [th evs]. simpl in *. now subst. }
  exists s'. split; [exact T'|].
  destruct (tick_synced default_config s s' e _ P L La T') as (P' & L' & _ & _).
  split; [exact P'|]. split; [exact L'|].
  pose proof (new_frames_synced s e L La) as NF.
  assert (H : has_new s e = true).
  { unfold has_new, seen. apply Nat.ltb_lt. rewrite L, A, length_app. simpl. lia. }
  assert (B : batch_silent s e = false).
  { unfold batch_silent. rewrite NF, A. simpl. now rewrite app_nil_r. }
  assert (Len : length (pending s e) = S (length (accumulated_frames s))).
  { unfold pending. rewrite NF, A, length_app. simpl. lia. }
  split; [exact Len|].
  pose proof (decision_loud default_config s e B) as D.
  pose proof (tick_chunks default_config s e) as C.
  pose proof (tick_forced_chunks default_config s e) as FC.
  rewrite P, H in C, FC. simpl in C, FC.
  destruct (tick_reset default_config s s' e _ T') as [R1 R2].
  split; intro K.
  - assert (Q : Qle_bool (max_chunk_duration default_config)
                  (chunk_duration (pending s e)) = false).
    { apply Qle_bool_false. apply Qnot_le_lt. intro Le.
      apply default_max_frames in Le. lia. }
    rewrite Q in D. rewrite D in C, FC.
    split; [exact C|]. split; [exact FC|].
    destruct (tick_kept default_config s e P H D) as (s'' & T'' & A'' & _).
    rewrite T' in T''. inversion T''; subst. exact A''.
  - assert (Q : Qle_bool (max_chunk_duration default_config)
                  (chunk_duration (pending s e)) = true).
    { apply Qle_bool_iff. now apply default_max_frames. }
    rewrite Q in D. rewrite D in C, FC.
    split; [exact C|]. split; [exact FC|].
    apply R1. rewrite C. discriminate.
Qed.

Lemma loud_run (es : list tick_env) :
  forall (s : state) (k : nat),
  is_processing s = false ->
  last_process_size s = length (frames s) ->
  length (accumulated_frames s) = k -> (k < 431)%nat ->
  Forall loud_single es ->
  exists s1 evs,
    run default_config s es = (Running s1, evs)
    /\ length (chunks evs) = ((k + length es) / 431)%nat
    /\ Forall (fun c => length c = 431%nat) (chunks evs)
    /\ forced_chunks evs = chunks evs
    /\ length (accumulated_frames s1) = ((k + length es) mod 431)%nat.
Proof.
  induction es as [|e es IH]; intros s k P L A K F.
  - exists s, []. split; [reflexivity|].
    cbn [chunks forced_chunks length]. rewrite Nat.add_0_r.
    rewrite Nat.div_small, Nat.mod_small by exact K. auto.
  - inversion F as [|? ? Fe Fes]; subst.
    destruct (loud_tick s e P L Fe) as (s' & T & P' & L' & Len & Lo & Hi).
    rewrite run_cons, T.
    destruct (Nat.lt_ge_cases (length (pending s e)) 431) as [C|C].
    + destruct (Lo C) as (Ch & Fo & Ac).
      destruct (IH s' (S (length (accumulated_frames s))) P' L')
        as (s1 & evs & R & N & Al & Fc & M); auto; try lia.
      { now rewrite Ac. }
      exists s1, (snd (tick default_config s e) ++ evs).
      rewrite R. simpl fst. simpl snd.
      rewrite chunks_app, forced_chunks_app, Ch, Fo. simpl.
      replace (length (accumulated_frames s) + S (length es))%nat
        with (S (length (accumulated_frames s)) + length es)%nat by lia.
      auto.
    + destruct (Hi C) as (Ch & Fo & Ac).
      assert (E : length (accumulated_frames s) = 430%nat) by lia.
      destruct (IH s' 0%nat P' L') as (s1 & evs & R & N & Al & Fc & M);
        auto; try lia.
      { now rewrite Ac. }
      exists s1, (snd (tick default_config s e) ++ evs).
      rewrite R. simpl fst. simpl snd.
      rewrite chunks_app, forced_chunks_app, Ch, Fo. simpl app.
      rewrite E.
      replace (430 + length (e :: es))%nat with (1 * 431 + length es)%nat
        by (simpl; lia).
      rewrite Nat.div_add_l by discriminate.
      replace ((1 * 431 + length es) mod 431)%nat with (length es mod 431)%nat
        by (rewrite (Nat.add_comm (1 * 431)); symmetry; apply Nat.Div0.mod_add).
      cbn [length]. rewrite Nat.add_0_l in N, M. rewrite N.
      split; [reflexivity|]. split; [lia|]. split.
      * constructor; [lia|exact Al].
      * split; [now rewrite Fc|exact M].
Qed.

(** X12: with the durations of the source, loud frames found one in each
    iteration are cut into chunks of 431 frames, all by the force-cut: after
    [n] iterations [n / 431] chunks have been handed over and [n mod 431]
    frames are pending. *)
Theorem one_chunk_per_431_loud_frames (t0 : Q) (es : list tick_env) :
  Forall loud_single es ->
  exists s1 evs,
    run default_config (init_state t0) es = (Running s1, evs)
    /\ length (chunks evs) = (length es / 431)%nat
    /\ Forall (fun c => length c = 431%nat) (chunks evs)
    /\ forced_chunks evs = chunks evs
    /\ length (accumulated_frames s1) = (length es mod 431)%nat.
Proof.
  intro F.
  destruct (loud_run es (init_state t0) 0%nat eq_refl eq_refl eq_refl) as
    (s1 & evs & H); [lia|exact F|].
  exists s1, evs. exact H.
Qed.


Lemma total_abs_bound (data : list Z) :
  Forall (fun x => -32768 < x <= 32767) data ->
  total (map Z.abs data) <= 32767 * Z.of_nat (length data).
Proof.
  unfold total. induction 1 as [|x l Hx _ IH]; [simpl; lia|].
  cbn [map fold_right length]. rewrite Nat2Z.inj_succ. lia.
Qed.

(** X1: on a buffer that is not empty and holds no sample -32768, the
    volume is the mean absolute amplitude and lies between 0 and 32767. *)
Theorem volume_in_sample_range (data : list sample) :
  Forall (fun x => -32768 < x <= 32767) data -> data <> [] ->
  exists q, volume data = Some q /\ mean_abs data = Some q
            /\ (0 <= q)%Q /\ (q <= 32767)%Q.
Proof.
  intros H N. pose proof (volume_mean_abs data H) as E.
  assert (N' : map Z.abs data <> []) by (destruct data; [congruence|discriminate]).
  pose proof (mean_some _ N') as M. fold (mean_abs data) in M.
  eexists. split; [rewrite E; exact M|]. split; [exact M|]. split.
  - apply (volume_nonneg data); [exact H|]. rewrite E. exact M.
  - rewrite length_map. apply Qle_shift_div_r; [now apply length_pos_Q|].
    change 32767%Q with (inject_Z 32767).
    rewrite <- inject_Z_mult, <- Zle_Qle. now apply total_abs_bound.
Qed.

Lemma detect_silence_loud (d : list sample) (th : Q) :
  detect_silence d th = false <->
  d = []
  \/ (th * inject_Z (Z.of_nat (length d)) <= inject_Z (total (np_abs d)))%Q.
Proof.
  pose proof (detect_silence_total d th) as T.
  destruct (detect_silence d th) eqn:E.
  - destruct (proj1 T eq_refl) as [N L]. split; [discriminate|].
    intros [K|K]; [congruence|]. exfalso. apply (Qlt_not_le _ _ L K).
  - split; [intros _|reflexivity].
    destruct d as [|x d]; [now left|right].
    apply Qnot_lt_le. intro L.
    assert (K : false = true) by (apply T; split; [discriminate|exact L]).
    discriminate.
Qed.

Lemma detect_silence_app_loud (a b : list sample) (th : Q) :
  detect_silence a th = false -> detect_silence b th = false ->
  detect_silence (a ++ b) th = false.
Proof.
  rewrite !detect_silence_loud. intros [->|Ha] [->|Hb].
  - now left.
  - now right.
  - rewrite app_nil_r. now right.
  - right. unfold np_abs in *.
    rewrite map_app, total_app, length_app, Nat2Z.inj_add, !inject_Z_plus.
    lra.
Qed.

(** X2: frames that are each silent are silent when joined into one batch,
    and frames that are each not silent are not silent when joined. *)
Theorem joined_frames_classified_alike (fs : list (list sample)) (th : Q) :
  (fs <> [] -> Forall (fun f => detect_silence f th = true) fs ->
   detect_silence (concat fs) th = true)
  /\ (Forall (fun f => detect_silence f th = false) fs ->
      detect_silence (concat fs) th = false).
Proof.
  split; [apply detect_silence_concat|].
  induction 1 as [|f fs Hf _ IH]; [reflexivity|].
  simpl. now apply detect_silence_app_loud.
Qed.

Lemma min_one_le (x : option Q) : (min_one x <= 1)%Q.
Proof.
  unfold min_one. destruct x as [q|]; [|apply Qle_refl].
  destruct (Qltb q 1) eqn:E; [|apply Qle_refl].
  apply Qltb_lt in E. now apply Qlt_le_weak.
Qed.

(** X3: the level [detect_silence] sets on the record button is at most 1
    for every buffer, is at least 0 when the buffer holds no sample -32768,
    and is 1 from the volume 300 on; the animation flag is not touched. *)
Theorem shown_level_in_unit_range (b : button) (audio_data : list sample) (threshold : Q) :
  let b' := fst (detect_silence_on b audio_data threshold) in
  (volume_level b' <= 1)%Q
  /\ is_animating b' = is_animating b
  /\ (Forall (fun x => -32768 < x <= 32767) audio_data ->
      (0 <= volume_level b')%Q)
  /\ (forall q, volume audio_data = Some q -> (300 <= q)%Q ->
      volume_level b' = 1%Q).
Proof.
  cbv zeta. unfold detect_silence_on, set_volume. cbn [fst volume_level is_animating].
  split; [apply min_one_le|]. split; [reflexivity|]. split.
  - intro H. destruct (volume audio_data) as [q|] eqn:V; simpl; [|discriminate].
    pose proof (volume_nonneg audio_data q H V) as N.
    destruct (Qltb (q / 300) 1); [|discriminate].
    apply Qle_shift_div_l; [reflexivity|]. lra.
  - intros q V L. rewrite V. simpl.
    destruct (Qltb (q / 300) 1) eqn:E; [|reflexivity].
    apply Qltb_lt in E. exfalso.
    assert (K : (1 <= q / 300)%Q) by (apply Qle_shift_div_l; [reflexivity|lra]).
    apply (Qlt_not_le _ _ E K).
Qed.

(** X15: [toggle_window] called with the window open: while recording it
    stops the recording and then raises, because [stop_recording] has
    already destroyed the window and set [self.root] to [None]; when not
    recording it closes the window and returns. *)
Theorem toggle_while_recording_raises (t : tool) :
  window_open t = true ->
  (is_recording t = true ->
   toggle_window_open t = (stop_recording t, AttributeError))
  /\ (is_recording t = false ->
      snd (toggle_window_open t) = Done
      /\ window_open (fst (toggle_window_open t)) = false
      /\ is_recording (fst (toggle_window_open t)) = false).
Proof.
  intro W. unfold toggle_window_open. split; intro R; rewrite R.
  - reflexivity.
  - rewrite W. simpl. auto.
Qed.

Lemma process_chunk_puts {frame : Type} (fs : list frame) (tr : transcription) :
  (length (puts (fst (process_chunk fs tr))) <= 1)%nat
  /\ Forall (fun t => t <> [] /\ trimmed t) (puts (fst (process_chunk fs tr))).
Proof.
  unfold process_chunk. destruct fs; [simpl; auto|].
  destruct (wav_ready tr); [|simpl; auto].
  destruct (recognize_google tr) as [t| |m]; try (simpl; auto).
  destruct (nonempty (strip t)) eqn:N; simpl; [|auto].
  split; [lia|]. constructor; [|constructor].
  split; [now apply nonempty_true|apply strip_trimmed].
Qed.

Lemma queued_app (a b : list event) : queued (a ++ b) = queued a ++ queued b.
Proof.
  induction a as [|x a IH]; simpl; [reflexivity|].
  destruct x as [| |[| |]]; simpl; rewrite IH; reflexivity.
Qed.

Lemma queued_recognizer (l : list effect) : queued (map Recognizer l) = puts l.
Proof.
  induction l as [|x l IH]; simpl; [reflexivity|].
  destruct x; simpl; now rewrite IH.
Qed.

Lemma queued_shown (s : state) (b : bool) (t : Q) :
  queued (shown (track_silence s b t)) = [].
Proof.
  unfold track_silence. destruct b; simpl.
  - destruct (silence_start s); reflexivity.
  - destruct (is_listening s); reflexivity.
Qed.

Lemma tick_queued (cfg : config) (s : state) (e : tick_env) :
  (length (queued (snd (tick cfg s e))) <= length (chunks (snd (tick cfg s e))))%nat
  /\ Forall (fun t => t <> [] /\ trimmed t) (queued (snd (tick cfg s e))).
Proof.
  unfold tick. destruct (is_processing s); [simpl; auto|].
  destruct (has_new s e); [|simpl; auto].
  destruct (decision cfg s e) as [r|].
  - destruct (process_chunk_puts (pending s e) (recognizer e)) as [L F].
    destruct (process_chunk (pending s e) (recognizer e)) as [eff [|]];
      simpl in L, F; cbn [snd];
      rewrite ?queued_app, ?chunks_app, ?queued_shown, ?chunks_shown;
      cbn [queued chunks app]; 
      rewrite ?queued_app, ?chunks_app, ?queued_recognizer, ?chunks_recognizer;
      cbn [queued chunks app length]; rewrite ?app_nil_r; split; auto; lia.
  - cbn [snd]. rewrite queued_shown, chunks_shown. simpl. auto.
Qed.

(** X4: in every run of the loop, at most one text is put on the queue for
    each chunk handed over, and every text put on the queue is not empty
    and has no white space at its start or at its end. *)
Theorem queued_texts_are_trimmed (cfg : config) (es : list tick_env) (s : state) :
  (length (queued (snd (run cfg s es)))
   <= length (chunks (snd (run cfg s es))))%nat
  /\ Forall (fun t => t <> [] /\ trimmed t) (queued (snd (run cfg s es))).
Proof.
  revert s. induction es as [|e es IH]; intro s; simpl; [auto|].
  destruct (tick_queued cfg s e) as [L F].
  destruct (tick cfg s e) as [[s'|] evs]; simpl in *; [|auto].
  destruct (IH s') as [L' F']. destruct (run cfg s' es) as [th evs'].
  simpl in *. rewrite queued_app, chunks_app, !length_app.
  split; [lia|]. apply Forall_app. auto.
Qed.

(** ** The further properties on concrete inputs *)


(** X1 on the quiet frame. *)
Lemma volume_in_sample_range_witness :
  exists q, volume quiet = Some q /\ mean_abs quiet = Some q
            /\ (0 <= q)%Q /\ (q <= 32767)%Q.
Proof.
  apply (volume_in_sample_range quiet).
  - constructor; [lia|constructor].
  - discriminate.
Defined.

(** X2 on two quiet frames and on two loud ones. *)
Lemma joined_frames_classified_alike_witness :
  detect_silence (concat [quiet; quiet]) default_threshold = true
  /\ detect_silence (concat [loud; loud]) default_threshold = false.
Proof.
  split.
  - apply (proj1 (joined_frames_classified_alike [quiet; quiet]
                    default_threshold)); [discriminate|].
    constructor; [vm_compute; reflexivity|].
    constructor; [vm_compute; reflexivity|constructor].
  - apply (proj2 (joined_frames_classified_alike [loud; loud]
                    default_threshold)).
    constructor; [vm_compute; reflexivity|].
    constructor; [vm_compute; reflexivity|constructor].
Defined.

(** X3 on the loud frame, whose volume is 1000. *)
Lemma shown_level_in_unit_range_witness :
  let b' := fst (detect_silence_on init_button loud default_threshold) in
  (volume_level b' <= 1)%Q /\ (0 <= volume_level b')%Q
  /\ volume_level b' = 1%Q.
Proof.
  cbv zeta.
  destruct (shown_level_in_unit_range init_button loud default_threshold)
    as (A & _ & B & C).
  split; [exact A|]. split.
  - apply B. constructor; [lia|constructor].
  - apply (C (inject_Z 1000 / inject_Z 1)%Q); [reflexivity|].
    vm_compute. intro H. discriminate H.
Defined.

(** X5 on the run in which a frame arrives late. *)
Lemma loop_bookkeeping_witness :
  let es := [racy [first_frame] [second_frame] 100; env [] (2001 # 20)] in
  let s1 := state_after default_config es in
  is_processing s1 = false
  /\ frames s1 = delivered es
  /\ (last_process_size s1 <= length (frames s1))%nat.
Proof.
  cbv zeta.
  apply (loop_bookkeeping default_config 100
           [racy [first_frame] [second_frame] 100; env [] (2001 # 20)]
           (state_after default_config
              [racy [first_frame] [second_frame] 100; env [] (2001 # 20)])
           (snd (run default_config (init_state 100)
                   [racy [first_frame] [second_frame] 100;
                    env [] (2001 # 20)]))).
  vm_compute. reflexivity.
Defined.

(** X9 on five hundred loud frames. *)
Lemma pending_stays_below_max_witness :
  accumulated_frames (state_after default_config (steady 500)) = []
  \/ (chunk_duration (accumulated_frames
                        (state_after default_config (steady 500)))
      < max_chunk_duration default_config)%Q.
Proof.
  apply (pending_stays_below_max default_config (steady 500)
           (init_state 100) (state_after default_config (steady 500))
           (snd (run default_config (init_state 100) (steady 500)))).
  - vm_compute. intro H. discriminate H.
  - left. reflexivity.
  - vm_compute. reflexivity.
Defined.

(** X10 on the iteration at 101.1 when the file cannot be written. *)
Lemma failed_recording_file_ends_loop_witness :
  let s := state_after default_config [speech; hush1] in
  decision default_config s failing_hush <> None
  /\ wav_ready (recognizer failing_hush) = false
  /\ fst (tick default_config s failing_hush) = Dead
  /\ chunks (snd (tick default_config s failing_hush))
     = [pending s failing_hush]
  /\ process_audio_from default_config recording_tool s
       [Iterate failing_hush; Iterate hush3]
     = snd (tick default_config s failing_hush).
Proof.
  cbv zeta.
  assert (N : decision default_config
                (state_after default_config [speech; hush1]) failing_hush
              <> None) by evaluate.
  destruct (failed_recording_file_ends_loop default_config
              (state_after default_config [speech; hush1]) failing_hush
              eq_refl eq_refl N eq_refl) as (D & C & R).
  split; [exact N|]. split; [reflexivity|]. split; [exact D|].
  split; [exact C|]. apply R. reflexivity.
Defined.

(** X11 on a session without late frames. *)
Lemma frames_partitioned_without_race_witness :
  let es := [speech; hush1; hush3; hush2] in
  let s1 := state_after default_config es in
  let evs := snd (run default_config (init_state 100) es) in
  concat (chunks evs) ++ accumulated_frames s1 = delivered es
  /\ frames s1 = delivered es
  /\ last_process_size s1 = length (frames s1).
Proof.
  cbv zeta.
  apply (frames_partitioned_without_race default_config 100
           [speech; hush1; hush3; hush2]).
  - repeat constructor.
  - vm_compute. reflexivity.
Defined.

(** Each iteration of a steady loud stream finds one loud frame. *)
Lemma steady_loud (n : nat) : Forall loud_single (steady n).
Proof.
  apply Forall_forall. intros e H. apply repeat_spec in H. subst e.
  split; [exists loud; split; reflexivity|]. split; reflexivity.
Qed.

(** X12 on five hundred loud frames. *)
Lemma one_chunk_per_431_loud_frames_witness :
  exists s1 evs,
    run default_config (init_state 100) (steady 500) = (Running s1, evs)
    /\ length (chunks evs) = (length (steady 500) / 431)%nat
    /\ Forall (fun c => length c = 431%nat) (chunks evs)
    /\ forced_chunks evs = chunks evs
    /\ length (accumulated_frames s1) = (length (steady 500) mod 431)%nat.
Proof.
  apply (one_chunk_per_431_loud_frames 100 (steady 500)).
  apply steady_loud.
Defined.

(** The two sample texts have no white space at their ends. *)
Lemma hi_trimmed : trimmed hi.
Proof. split; reflexivity. Qed.

Lemma yo_trimmed : trimmed yo.
Proof. split; reflexivity. Qed.

(** X13 on two texts, the second still pending when the loop ends. *)
Lemma typed_text_is_received_text_witness :
  let es := [take hi 100; wait 102 Delivered; take yo 103] in
  received es = [hi; yo]
  /\ typed (process_text_input 100 es Delivered)
     = concat (map (fun t => t ++ [space]) (received es)).
Proof.
  cbv zeta. split; [reflexivity|].
  apply (typed_text_is_received_text 100
           [take hi 100; wait 102 Delivered; take yo 103]).
  - repeat constructor.
  - constructor; [intros t H; injection H as <-; exact hi_trimmed|].
    constructor; [intros t H; discriminate H|].
    constructor; [intros t H; injection H as <-; exact yo_trimmed|].
    constructor.
Defined.

(** X14 on a failing [keyboard.send]. *)
Lemma failed_delivery_keeps_text_witness :
  let s1 := fst (input_step (init_input 100) slip) in
  accumulated_text s1 = hi ++ [space]
  /\ snd (input_step s1 (wait 102 Delivered))
     = [SetClipboardText hi; KeyboardWrite hi; KeyboardSendSpace]
  /\ In (KeyboardWrite hi) (snd (input_step (init_input 100) slip)).
Proof.
  cbv zeta.
  assert (Du : due (receive (init_input 100) slip) (checked_at slip) = true)
    by (vm_compute; reflexivity).
  assert (Nd : delivery_of slip <> Delivered) by discriminate.
  assert (L : (1 <= checked_at (wait 102 Delivered)
                    - last_input_time (receive (init_input 100) slip))%Q)
    by (vm_compute; intro H; discriminate H).
  destruct (failed_delivery_keeps_text (init_input 100) slip
              (wait 102 Delivered) Du Nd eq_refl eq_refl L)
    as (A & _ & B & _ & C).
  split; [exact A|]. split; [exact B|].
  exact (C [69; 114; 114]%N eq_refl).
Defined.

(** X15 on a recording tool. *)
Lemma toggle_while_recording_raises_witness :
  toggle_window_open recording_tool
  = (stop_recording recording_tool, AttributeError).
Proof.
  apply (proj1 (toggle_while_recording_raises recording_tool eq_refl)).
  reflexivity.
Defined.
